(** * Fixed-point arithmetic of cudf: cpp/include/cudf/fixed_point/fixed_point.hpp

    A shallow embedding of the header's integer kernels, of the
    [fixed_point<Rep, Rad>] value type and of its operators, followed by the
    properties the specification states about them.

    C++ integers are modelled as [Z] together with their type: a type is a
    signedness and a width (LP64, so [long] and [long long] coincide), and
    every operation writes out the usual arithmetic conversions and the
    reduction modulo [2^width] of its result.  Signed overflow, which is
    undefined in C++, is modelled as two's-complement wrap-around, as the
    release build of the library relies on.  A division or remainder whose
    operands are run-time values has no result where the machine traps, for
    a zero divisor and for the minimum divided by -1. *)

From Stdlib Require Import ZArith Lia Bool String Ascii.

Local Open Scope Z_scope.

(** ** C++ integral types *)

Module CInt.

Inductive width := W8 | W16 | W32 | W64 | W128.

Record ctype := CType { is_signed : bool; width_of : width }.

Definition bits_of (w : width) : Z :=
  match w with W8 => 8 | W16 => 16 | W32 => 32 | W64 => 64 | W128 => 128 end.

Definition bits (T : ctype) : Z := bits_of (width_of T).

(** [sizeof(T)] in bytes. *)
Definition sizeof (T : ctype) : Z := bits T / 8.

Definition int8_t   := CType true W8.
Definition int16_t  := CType true W16.
Definition int32_t  := CType true W32.
Definition int64_t  := CType true W64.
Definition int128_t := CType true W128.
Definition uint8_t   := CType false W8.
Definition uint16_t  := CType false W16.
Definition uint32_t  := CType false W32.
Definition uint64_t  := CType false W64.
Definition uint128_t := CType false W128.

(** The types of the literals of the header: [10] is an [int], [10LL] a
    [long long], [10ULL] an [unsigned long long]. *)
Definition int_t := int32_t.
Definition long_long_t := int64_t.
Definition unsigned_long_long_t := uint64_t.

(** [numeric_limits<T>::min()] and [numeric_limits<T>::max()]. *)
Definition min_of (T : ctype) : Z :=
  if is_signed T then - 2 ^ (bits T - 1) else 0.

Definition max_of (T : ctype) : Z :=
  if is_signed T then 2 ^ (bits T - 1) - 1 else 2 ^ bits T - 1.

Definition in_range (T : ctype) (z : Z) : Prop := min_of T <= z <= max_of T.

Definition in_rangeb (T : ctype) (z : Z) : bool :=
  (min_of T <=? z) && (z <=? max_of T).

(** Conversion of an integer to type [T] ([static_cast<T>] and every implicit
    conversion): the unique value of [T] congruent to [z] modulo [2^bits]. *)
Definition cast (T : ctype) (z : Z) : Z :=
  if is_signed T
  then (z + 2 ^ (bits T - 1)) mod 2 ^ bits T - 2 ^ (bits T - 1)
  else z mod 2 ^ bits T.

(** Integral promotion: types narrower than [int] become [int]. *)
Definition promote (T : ctype) : ctype :=
  if bits T <? 32 then int_t else T.

(** The usual arithmetic conversions, which are also what
    [std::common_type_t] computes for two integral types. *)
Definition common_type (A B : ctype) : ctype :=
  let A' := promote A in
  let B' := promote B in
  if Bool.eqb (is_signed A') (is_signed B') then
    if bits A' <? bits B' then B' else A'
  else
    let S := if is_signed A' then A' else B' in
    let U := if is_signed A' then B' else A' in
    if bits S <=? bits U then U else S.

(** A typed value: the operand of an expression. *)
Definition cval : Type := ctype * Z.

Definition binop (f : Z -> Z -> Z) (a b : cval) : cval :=
  let C := common_type (fst a) (fst b) in
  (C, cast C (f (cast C (snd a)) (cast C (snd b)))).

(** [a * b], [a / b], [a % b], [a + b], [a - b] on typed operands.  Division
    truncates toward zero ([Z.quot]); the remainder has the sign of the
    dividend ([Z.rem]). *)
Definition c_mul := binop Z.mul.
Definition c_div := binop Z.quot.
Definition c_rem := binop Z.rem.
Definition c_add := binop Z.add.
Definition c_sub := binop Z.sub.

(** [a / b] and [a % b] in a signed type [T] are undefined, and trap, for
    a zero divisor and for [min / -1], whose quotient [T] does not hold. *)
Definition c_div_traps (T : ctype) (a b : Z) : bool :=
  (b =? 0) || ((a =? min_of T) && (b =? -1)).

(** Comparisons convert both operands to their common type first. *)
Definition cmpop (f : Z -> Z -> bool) (a b : cval) : bool :=
  let C := common_type (fst a) (fst b) in
  f (cast C (snd a)) (cast C (snd b)).

Definition c_eq := cmpop Z.eqb.
Definition c_ne := cmpop (fun x y => negb (x =? y)).
Definition c_lt := cmpop Z.ltb.
Definition c_le := cmpop Z.leb.
Definition c_gt := cmpop Z.gtb.
Definition c_ge := cmpop Z.geb.

(** [a >> n] and [a << n]: the left operand is promoted, the result has the
    promoted type.  [>>] on a signed operand is the arithmetic shift.  C++
    leaves shifts by a negative amount or by the width and more undefined;
    here they are the shifts of [Z], reduced to the type. *)
Definition c_shr (a : cval) (n : Z) : cval :=
  let P := promote (fst a) in (P, cast P (Z.shiftr (cast P (snd a)) n)).

Definition c_shl (a : cval) (n : Z) : cval :=
  let P := promote (fst a) in (P, cast P (Z.shiftl (cast P (snd a)) n)).

(** Unary minus, after promotion. *)
Definition c_neg (a : cval) : cval :=
  let P := promote (fst a) in (P, cast P (- cast P (snd a))).

(** [return e;] in a function whose return type is [T]. *)
Definition ret (T : ctype) (e : cval) : Z := cast T (snd e).

(** Literals. *)
Definition lit (z : Z) : cval := (int_t, z).
Definition LL (z : Z) : cval := (long_long_t, z).
Definition ULL (z : Z) : cval := (unsigned_long_long_t, z).

End CInt.
Import CInt.

(** ** The representation types and the radix *)

(** The three types for which [fixed_point] can be instantiated, those
    that [is_supported_representation_type] accepts: [int32_t], [int64_t]
    and [__int128_t]. *)
Inductive rep := Rep32 | Rep64 | Rep128.

Definition rep_type (R : rep) : ctype :=
  match R with
  | Rep32 => int32_t
  | Rep64 => int64_t
  | Rep128 => int128_t
  end.

Coercion rep_type : rep >-> ctype.

Inductive Radix := BASE_2 | BASE_10.

Definition radix_value (Rad : Radix) : Z :=
  match Rad with BASE_2 => 2 | BASE_10 => 10 end.

(** ** Power-of-10 kernels ([namespace detail]) *)

Module detail.

(** [large_power_of_10<Exp10>()]: [10^18] as a literal, then repeated
    multiplication by [__int128_t(10)].  [from18 k] is
    [large_power_of_10<18 + k>()]. *)
Fixpoint large_power_of_10_from18 (k : nat) : cval :=
  match k with
  | O => (int128_t, cast int128_t 1000000000000000000)
  | S k' => c_mul (large_power_of_10_from18 k') (int128_t, cast int128_t 10)
  end.

Definition large_power_of_10 (Exp10 : Z) : cval :=
  large_power_of_10_from18 (Z.to_nat (Exp10 - 18)).

Definition divide_power10_32bit (T : ctype) (value : Z) (exp10 : Z) : Z :=
  let v : cval := (T, value) in
  match exp10 with
  | 0 => value
  | 1 => ret T (c_div v (lit 10))
  | 2 => ret T (c_div v (lit 100))
  | 3 => ret T (c_div v (lit 1000))
  | 4 => ret T (c_div v (lit 10000))
  | 5 => ret T (c_div v (lit 100000))
  | 6 => ret T (c_div v (lit 1000000))
  | 7 => ret T (c_div v (lit 10000000))
  | 8 => ret T (c_div v (lit 100000000))
  | 9 => ret T (c_div v (lit 1000000000))
  | _ => ret T (lit 0)
  end.

Definition divide_power10_64bit (T : ctype) (value : Z) (exp10 : Z) : Z :=
  let v : cval := (T, value) in
  match exp10 with
  | 0 => value
  | 1 => ret T (c_div v (lit 10))
  | 2 => ret T (c_div v (lit 100))
  | 3 => ret T (c_div v (lit 1000))
  | 4 => ret T (c_div v (lit 10000))
  | 5 => ret T (c_div v (lit 100000))
  | 6 => ret T (c_div v (lit 1000000))
  | 7 => ret T (c_div v (lit 10000000))
  | 8 => ret T (c_div v (lit 100000000))
  | 9 => ret T (c_div v (lit 1000000000))
  | 10 => ret T (c_div v (LL 10000000000))
  | 11 => ret T (c_div v (LL 100000000000))
  | 12 => ret T (c_div v (LL 1000000000000))
  | 13 => ret T (c_div v (LL 10000000000000))
  | 14 => ret T (c_div v (LL 100000000000000))
  | 15 => ret T (c_div v (LL 1000000000000000))
  | 16 => ret T (c_div v (LL 10000000000000000))
  | 17 => ret T (c_div v (LL 100000000000000000))
  | 18 => ret T (c_div v (LL 1000000000000000000))
  | 19 => ret T (c_div v (ULL 10000000000000000000))
  | _ => ret T (lit 0)
  end.

Definition divide_power10_128bit (T : ctype) (value : Z) (exp10 : Z) : Z :=
  let v : cval := (T, value) in
  match exp10 with
  | 0 => value
  | 1 => ret T (c_div v (lit 10))
  | 2 => ret T (c_div v (lit 100))
  | 3 => ret T (c_div v (lit 1000))
  | 4 => ret T (c_div v (lit 10000))
  | 5 => ret T (c_div v (lit 100000))
  | 6 => ret T (c_div v (lit 1000000))
  | 7 => ret T (c_div v (lit 10000000))
  | 8 => ret T (c_div v (lit 100000000))
  | 9 => ret T (c_div v (lit 1000000000))
  | 10 => ret T (c_div v (LL 10000000000))
  | 11 => ret T (c_div v (LL 100000000000))
  | 12 => ret T (c_div v (LL 1000000000000))
  | 13 => ret T (c_div v (LL 10000000000000))
  | 14 => ret T (c_div v (LL 100000000000000))
  | 15 => ret T (c_div v (LL 1000000000000000))
  | 16 => ret T (c_div v (LL 10000000000000000))
  | 17 => ret T (c_div v (LL 100000000000000000))
  | 18 => ret T (c_div v (LL 1000000000000000000))
  | 19 => ret T (c_div v (large_power_of_10 19))
  | 20 => ret T (c_div v (large_power_of_10 20))
  | 21 => ret T (c_div v (large_power_of_10 21))
  | 22 => ret T (c_div v (large_power_of_10 22))
  | 23 => ret T (c_div v (large_power_of_10 23))
  | 24 => ret T (c_div v (large_power_of_10 24))
  | 25 => ret T (c_div v (large_power_of_10 25))
  | 26 => ret T (c_div v (large_power_of_10 26))
  | 27 => ret T (c_div v (large_power_of_10 27))
  | 28 => ret T (c_div v (large_power_of_10 28))
  | 29 => ret T (c_div v (large_power_of_10 29))
  | 30 => ret T (c_div v (large_power_of_10 30))
  | 31 => ret T (c_div v (large_power_of_10 31))
  | 32 => ret T (c_div v (large_power_of_10 32))
  | 33 => ret T (c_div v (large_power_of_10 33))
  | 34 => ret T (c_div v (large_power_of_10 34))
  | 35 => ret T (c_div v (large_power_of_10 35))
  | 36 => ret T (c_div v (large_power_of_10 36))
  | 37 => ret T (c_div v (large_power_of_10 37))
  | 38 => ret T (c_div v (large_power_of_10 38))
  | _ => ret T (lit 0)
  end.

Definition multiply_power10_32bit (T : ctype) (value : Z) (exp10 : Z) : Z :=
  let v : cval := (T, value) in
  match exp10 with
  | 0 => value
  | 1 => ret T (c_mul v (lit 10))
  | 2 => ret T (c_mul v (lit 100))
  | 3 => ret T (c_mul v (lit 1000))
  | 4 => ret T (c_mul v (lit 10000))
  | 5 => ret T (c_mul v (lit 100000))
  | 6 => ret T (c_mul v (lit 1000000))
  | 7 => ret T (c_mul v (lit 10000000))
  | 8 => ret T (c_mul v (lit 100000000))
  | 9 => ret T (c_mul v (lit 1000000000))
  | _ => ret T (lit 0)
  end.

Definition multiply_power10_64bit (T : ctype) (value : Z) (exp10 : Z) : Z :=
  let v : cval := (T, value) in
  match exp10 with
  | 0 => value
  | 1 => ret T (c_mul v (lit 10))
  | 2 => ret T (c_mul v (lit 100))
  | 3 => ret T (c_mul v (lit 1000))
  | 4 => ret T (c_mul v (lit 10000))
  | 5 => ret T (c_mul v (lit 100000))
  | 6 => ret T (c_mul v (lit 1000000))
  | 7 => ret T (c_mul v (lit 10000000))
  | 8 => ret T (c_mul v (lit 100000000))
  | 9 => ret T (c_mul v (lit 1000000000))
  | 10 => ret T (c_mul v (LL 10000000000))
  | 11 => ret T (c_mul v (LL 100000000000))
  | 12 => ret T (c_mul v (LL 1000000000000))
  | 13 => ret T (c_mul v (LL 10000000000000))
  | 14 => ret T (c_mul v (LL 100000000000000))
  | 15 => ret T (c_mul v (LL 1000000000000000))
  | 16 => ret T (c_mul v (LL 10000000000000000))
  | 17 => ret T (c_mul v (LL 100000000000000000))
  | 18 => ret T (c_mul v (LL 1000000000000000000))
  | 19 => ret T (c_mul v (ULL 10000000000000000000))
  | _ => ret T (lit 0)
  end.

Definition multiply_power10_128bit (T : ctype) (value : Z) (exp10 : Z) : Z :=
  let v : cval := (T, value) in
  match exp10 with
  | 0 => value
  | 1 => ret T (c_mul v (lit 10))
  | 2 => ret T (c_mul v (lit 100))
  | 3 => ret T (c_mul v (lit 1000))
  | 4 => ret T (c_mul v (lit 10000))
  | 5 => ret T (c_mul v (lit 100000))
  | 6 => ret T (c_mul v (lit 1000000))
  | 7 => ret T (c_mul v (lit 10000000))
  | 8 => ret T (c_mul v (lit 100000000))
  | 9 => ret T (c_mul v (lit 1000000000))
  | 10 => ret T (c_mul v (LL 10000000000))
  | 11 => ret T (c_mul v (LL 100000000000))
  | 12 => ret T (c_mul v (LL 1000000000000))
  | 13 => ret T (c_mul v (LL 10000000000000))
  | 14 => ret T (c_mul v (LL 100000000000000))
  | 15 => ret T (c_mul v (LL 1000000000000000))
  | 16 => ret T (c_mul v (LL 10000000000000000))
  | 17 => ret T (c_mul v (LL 100000000000000000))
  | 18 => ret T (c_mul v (LL 1000000000000000000))
  | 19 => ret T (c_mul v (large_power_of_10 19))
  | 20 => ret T (c_mul v (large_power_of_10 20))
  | 21 => ret T (c_mul v (large_power_of_10 21))
  | 22 => ret T (c_mul v (large_power_of_10 22))
  | 23 => ret T (c_mul v (large_power_of_10 23))
  | 24 => ret T (c_mul v (large_power_of_10 24))
  | 25 => ret T (c_mul v (large_power_of_10 25))
  | 26 => ret T (c_mul v (large_power_of_10 26))
  | 27 => ret T (c_mul v (large_power_of_10 27))
  | 28 => ret T (c_mul v (large_power_of_10 28))
  | 29 => ret T (c_mul v (large_power_of_10 29))
  | 30 => ret T (c_mul v (large_power_of_10 30))
  | 31 => ret T (c_mul v (large_power_of_10 31))
  | 32 => ret T (c_mul v (large_power_of_10 32))
  | 33 => ret T (c_mul v (large_power_of_10 33))
  | 34 => ret T (c_mul v (large_power_of_10 34))
  | 35 => ret T (c_mul v (large_power_of_10 35))
  | 36 => ret T (c_mul v (large_power_of_10 36))
  | 37 => ret T (c_mul v (large_power_of_10 37))
  | 38 => ret T (c_mul v (large_power_of_10 38))
  | _ => ret T (lit 0)
  end.

(** [multiply_power10<Rep>(value, exp10)] and [divide_power10<Rep>]: the
    kernel is chosen by [sizeof(Rep)], whatever the type [T] of [value]. *)
Definition multiply_power10 (Rep : ctype) (T : ctype) (value exp10 : Z) : Z :=
  if sizeof Rep <=? 4 then multiply_power10_32bit T value exp10
  else if sizeof Rep <=? 8 then multiply_power10_64bit T value exp10
  else multiply_power10_128bit T value exp10.

Definition divide_power10 (Rep : ctype) (T : ctype) (value exp10 : Z) : Z :=
  if sizeof Rep <=? 4 then divide_power10_32bit T value exp10
  else if sizeof Rep <=? 8 then divide_power10_64bit T value exp10
  else divide_power10_128bit T value exp10.

(** The [while] loop of [ipow]: [exponent], [extra] and [square] are the
    three variables it updates; [None] when the fuel runs out before the
    loop ends. *)
Fixpoint ipow_loop (Rep : ctype) (fuel : nat) (exponent extra square : Z)
    : option Z :=
  match fuel with
  | O => None
  | S fuel' =>
      if exponent >? 1 then
        let extra' :=
          if negb (Z.land exponent 1 =? 0)
          then snd (c_mul (Rep, extra) (Rep, square))
          else extra in
        ipow_loop Rep fuel' (Z.shiftr exponent 1) extra'
          (snd (c_mul (Rep, square) (Rep, square)))
      else Some (ret Rep (c_mul (Rep, square) (Rep, extra)))
  end.

(** [ipow<Rep, Base>(exponent)], integer exponentiation by squaring, for an
    [int32_t] exponent.  [cudf_assert(exponent >= 0 && ...)] is the first
    statement; the macro comes from cudf/detail/utilities/assert.cuh, which
    is not among the sources, and a failed assertion is taken to stop the
    function: a negative exponent is [None].  The loop halves a 32-bit
    exponent, so 32 rounds of fuel are given. *)
Definition ipow (Rep : ctype) (Base : Radix) (exponent : Z) : option Z :=
  if exponent <? 0 then None
  else
    match Base with
    | BASE_2 => Some (ret Rep (c_shl (Rep, cast Rep 1) exponent))
    | BASE_10 =>
        if exponent =? 0 then Some (cast Rep 1)
        else ipow_loop Rep 32 exponent (cast Rep 1) (cast Rep (radix_value Base))
    end.

(** [right_shift<Rep, Rad>(val, scale)] for an integral [T]: the branches
    for a non-integral [T], which go through [ipow], are not instantiated. *)
Definition right_shift (Rep : ctype) (Rad : Radix) (T : ctype)
    (val : Z) (scale : Z) : Z :=
  let int_scale := cast int32_t scale in
  match Rad with
  | BASE_10 => divide_power10 Rep T val int_scale
  | BASE_2 => ret T (c_shr (T, val) int_scale)
  end.

Definition left_shift (Rep : ctype) (Rad : Radix) (T : ctype)
    (val : Z) (scale : Z) : Z :=
  let int_scale := snd (c_neg (int32_t, cast int32_t scale)) in
  match Rad with
  | BASE_10 => multiply_power10 Rep T val int_scale
  | BASE_2 => ret T (c_shl (T, val) int_scale)
  end.

Definition shift (Rep : ctype) (Rad : Radix) (T : ctype)
    (val : Z) (scale : Z) : Z :=
  if scale =? 0 then val
  else if scale >? 0 then right_shift Rep Rad T val scale
  else left_shift Rep Rad T val scale.

(** *** Helpers of cudf/fixed_point/temporary.hpp *)

(** Modelled from the spec: [detail::abs] (temporary.hpp is not among the
    sources).  The spec's words are "av = |coefficient|"; the result has the
    type of the argument. *)
Definition abs (T : ctype) (value : Z) : Z := cast T (Z.abs value).

(** Modelled from the spec: [detail::exp10<BaseType>] (temporary.hpp is not
    among the sources).  The spec's words are "n = 10^(-scale)"; the result is
    a [BaseType]. *)
Definition exp10 (BaseType : ctype) (exponent : Z) : Z :=
  cast BaseType (10 ^ exponent).

Definition digit_char (d : Z) : ascii := ascii_of_nat (48 + Z.to_nat d).

(** The decimal digits of [n >= 0], most significant first, in front of
    [acc]; at least one digit. *)
Fixpoint digits_of (fuel : nat) (n : Z) (acc : string) : string :=
  match fuel with
  | O => acc
  | S fuel' =>
      let acc' := String (digit_char (n mod 10)) acc in
      if n / 10 =? 0 then acc' else digits_of fuel' (n / 10) acc'
  end.

(** Modelled from the spec: [detail::to_string] (temporary.hpp is not among
    the sources).  The spec's words are "decimal rendering": an optional
    minus sign and the decimal digits without leading zeros. *)
Definition to_string (value : Z) : string :=
  let magnitude := Z.abs value in
  let ds := digits_of (S (Z.to_nat (Z.log2 magnitude))) magnitude EmptyString in
  if value <? 0 then String "-" ds else ds.

End detail.

(** ** scaled_integer and fixed_point *)

(** [std::string(count, ch)]. *)
Definition string_fill (count : Z) (ch : ascii) : string :=
  Nat.iter (Z.to_nat count) (String ch) EmptyString.

(** [s.size()]. *)
Definition size (s : string) : Z := Z.of_nat (String.length s).

Record scaled_integer := { value : Z; scale : Z }.

(** The state of a [fixed_point<Rep, Rad>]: [Rep _value; scale_type _scale]. *)
Record fixed_point := { _value : Z; _scale : Z }.

(** The values a [fixed_point<Rep, Rad>] object can hold. *)
Definition well_typed (Rep : rep) (x : fixed_point) : Prop :=
  in_range Rep (_value x) /\ in_range int32_t (_scale x).

Section FixedPoint.

Variable Rep : rep.
Variable Rad : Radix.

(** [fixed_point(T const& value, scale_type const& scale)]. *)
Definition fixed_point_ctor (T : ctype) (value : Z) (scale : Z) : fixed_point :=
  {| _value := detail.shift Rep Rad Rep (cast Rep value) scale;
     _scale := scale |}.

(** [fixed_point(scaled_integer<Rep> s)]. *)
Definition fixed_point_of_scaled (s : scaled_integer) : fixed_point :=
  {| _value := value s; _scale := scale s |}.

(** [fixed_point(T const& value)]. *)
Definition fixed_point_of_value (T : ctype) (value : Z) : fixed_point :=
  {| _value := cast Rep value; _scale := 0 |}.

(** [fixed_point()]. *)
Definition fixed_point_default : fixed_point := {| _value := 0; _scale := 0 |}.

(** [explicit operator U() const]. *)
Definition operator_integral (U : ctype) (x : fixed_point) : Z :=
  let C := common_type U Rep in
  let value := cast C (_value x) in
  cast U (detail.shift Rep Rad C value (snd (c_neg (int32_t, _scale x)))).

(** [operator scaled_integer<Rep>() const]. *)
Definition operator_scaled_integer (x : fixed_point) : scaled_integer :=
  {| value := _value x; scale := _scale x |}.

(** [explicit operator bool() const]. *)
Definition operator_bool (x : fixed_point) : bool := negb (_value x =? 0).

(** [rescaled(scale_type scale) const]. *)
Definition rescaled (x : fixed_point) (scale : Z) : fixed_point :=
  if scale =? _scale x then x
  else
    let value :=
      detail.shift Rep Rad Rep (_value x)
        (snd (c_sub (int32_t, scale) (int32_t, _scale x))) in
    fixed_point_of_scaled {| value := value; scale := scale |}.

(** [operator+], release build (the overflow assertion is compiled only
    under [__CUDACC_DEBUG__]). *)
Definition operator_plus (lhs rhs : fixed_point) : fixed_point :=
  let scale := Z.min (_scale lhs) (_scale rhs) in
  let sum :=
    snd (c_add (rep_type Rep, _value (rescaled lhs scale))
               (rep_type Rep, _value (rescaled rhs scale))) in
  fixed_point_of_scaled {| value := sum; scale := scale |}.

Definition operator_minus (lhs rhs : fixed_point) : fixed_point :=
  let scale := Z.min (_scale lhs) (_scale rhs) in
  let diff :=
    snd (c_sub (rep_type Rep, _value (rescaled lhs scale))
               (rep_type Rep, _value (rescaled rhs scale))) in
  fixed_point_of_scaled {| value := diff; scale := scale |}.

Definition operator_times (lhs rhs : fixed_point) : fixed_point :=
  fixed_point_of_scaled
    {| value := snd (c_mul (rep_type Rep, _value lhs) (rep_type Rep, _value rhs));
       scale := snd (c_add (int32_t, _scale lhs) (int32_t, _scale rhs)) |}.

(** [operator/]: [None] where the division of the coefficients is
    undefined, for a zero divisor and for [min / -1]. *)
Definition operator_divide (lhs rhs : fixed_point) : option fixed_point :=
  if c_div_traps Rep (_value lhs) (_value rhs) then None
  else Some (fixed_point_of_scaled
    {| value := snd (c_div (rep_type Rep, _value lhs) (rep_type Rep, _value rhs));
       scale := snd (c_sub (int32_t, _scale lhs) (int32_t, _scale rhs)) |}).

Definition operator_eq (lhs rhs : fixed_point) : bool :=
  let scale := Z.min (_scale lhs) (_scale rhs) in
  _value (rescaled lhs scale) =? _value (rescaled rhs scale).

Definition operator_ne (lhs rhs : fixed_point) : bool :=
  let scale := Z.min (_scale lhs) (_scale rhs) in
  negb (_value (rescaled lhs scale) =? _value (rescaled rhs scale)).

Definition operator_le (lhs rhs : fixed_point) : bool :=
  let scale := Z.min (_scale lhs) (_scale rhs) in
  _value (rescaled lhs scale) <=? _value (rescaled rhs scale).

Definition operator_ge (lhs rhs : fixed_point) : bool :=
  let scale := Z.min (_scale lhs) (_scale rhs) in
  _value (rescaled lhs scale) >=? _value (rescaled rhs scale).

Definition operator_lt (lhs rhs : fixed_point) : bool :=
  let scale := Z.min (_scale lhs) (_scale rhs) in
  _value (rescaled lhs scale) <? _value (rescaled rhs scale).

Definition operator_gt (lhs rhs : fixed_point) : bool :=
  let scale := Z.min (_scale lhs) (_scale rhs) in
  _value (rescaled lhs scale) >? _value (rescaled rhs scale).

(** [operator%]: [None] where the remainder of the rescaled coefficients
    is undefined, for a zero divisor and for [min % -1]. *)
Definition operator_mod (lhs rhs : fixed_point) : option fixed_point :=
  let scale := Z.min (_scale lhs) (_scale rhs) in
  if c_div_traps Rep (_value (rescaled lhs scale)) (_value (rescaled rhs scale))
  then None
  else
    let remainder :=
      snd (c_rem (rep_type Rep, _value (rescaled lhs scale))
                 (rep_type Rep, _value (rescaled rhs scale))) in
    Some (fixed_point_of_scaled {| value := remainder; scale := scale |}).

(** [operator++()]: [*this = *this + fixed_point<Rep, Rad>{1, scale_type{_scale}}]. *)
Definition operator_pre_increment (x : fixed_point) : fixed_point :=
  operator_plus x (fixed_point_ctor int_t 1 (_scale x)).

(** [explicit operator std::string() const]; [None] when [av % n] divides by
    zero. *)
Definition operator_string (x : fixed_point) : option string :=
  if _scale x <? 0 then
    let av := detail.abs Rep (_value x) in
    let n := detail.exp10 Rep (snd (c_neg (int32_t, _scale x))) in
    if n =? 0 then None
    else
      let f := ret Rep (c_rem (rep_type Rep, av) (rep_type Rep, n)) in
      let num_zeros :=
        Z.max 0 (snd (c_sub (c_neg (int32_t, _scale x))
                            (int32_t, cast int32_t (size (detail.to_string f))))) in
      let zeros := string_fill num_zeros "0"%char in
      let sign := if _value x <? 0 then "-"%string else EmptyString in
      Some (sign
            ++ detail.to_string (snd (c_div (rep_type Rep, av) (rep_type Rep, n)))
            ++ "." ++ zeros
            ++ detail.to_string (snd (c_rem (rep_type Rep, av) (rep_type Rep, n))))%string
  else
    let zeros := string_fill (_scale x) "0"%char in
    Some (detail.to_string (_value x) ++ zeros)%string.

End FixedPoint.

(** ** Overflow predicates *)

Section Overflow.

Variable Rep : ctype.
Variable T : ctype.

Let min : cval := (Rep, min_of Rep).
Let max : cval := (Rep, max_of Rep).

Definition addition_overflow (lhs rhs : Z) : bool :=
  if c_gt (T, rhs) (lit 0)
  then c_gt (T, lhs) (c_sub max (T, rhs))
  else c_lt (T, lhs) (c_sub min (T, rhs)).

Definition subtraction_overflow (lhs rhs : Z) : bool :=
  if c_gt (T, rhs) (lit 0)
  then c_lt (T, lhs) (c_add min (T, rhs))
  else c_gt (T, lhs) (c_add max (T, rhs)).

Definition division_overflow (lhs rhs : Z) : bool :=
  c_eq (T, lhs) min && c_eq (T, rhs) (lit (-1)).

Definition multiplication_overflow (lhs rhs : Z) : bool :=
  if c_gt (T, rhs) (lit 0) then
    c_gt (T, lhs) (c_div max (T, rhs)) || c_lt (T, lhs) (c_div min (T, rhs))
  else if c_lt (T, rhs) (lit (-1)) then
    c_gt (T, lhs) (c_div min (T, rhs)) || c_lt (T, lhs) (c_div max (T, rhs))
  else
    c_eq (T, rhs) (lit (-1)) && c_eq (T, lhs) min.

End Overflow.

(** The aliases at the end of the header. *)
Definition decimal32_ctor := fixed_point_ctor Rep32 BASE_10.
Definition decimal64_ctor := fixed_point_ctor Rep64 BASE_10.
Definition decimal128_ctor := fixed_point_ctor Rep128 BASE_10.

(** ** Vocabulary of the properties *)

(** The three width-specific kernels and their documented exponent ranges
    ("from 0 to 9 inclusive", "from 0 to 19 inclusive", "from 0 to 38
    inclusive"). *)
Inductive kernel_width := K32 | K64 | K128.

Definition kernel_range (k : kernel_width) : Z :=
  match k with K32 => 9 | K64 => 19 | K128 => 38 end.

Definition divide_power10_Nbit (k : kernel_width) : ctype -> Z -> Z -> Z :=
  match k with
  | K32 => detail.divide_power10_32bit
  | K64 => detail.divide_power10_64bit
  | K128 => detail.divide_power10_128bit
  end.

Definition multiply_power10_Nbit (k : kernel_width) : ctype -> Z -> Z -> Z :=
  match k with
  | K32 => detail.multiply_power10_32bit
  | K64 => detail.multiply_power10_64bit
  | K128 => detail.multiply_power10_128bit
  end.

(** The kernel that [multiply_power10<Rep>] and [divide_power10<Rep>] select. *)
Definition rep_kernel (R : rep) : kernel_width :=
  match R with Rep32 => K32 | Rep64 => K64 | Rep128 => K128 end.

(** The largest amount by which [shift<Rep, Rad>] can move a coefficient:
    the exponent range of the kernel in base 10, and the largest shift count
    C++ defines for the type in base 2. *)
Definition shift_range (R : rep) (Rad : Radix) : Z :=
  match Rad with
  | BASE_10 => kernel_range (rep_kernel R)
  | BASE_2 => bits R - 1
  end.

(** The coefficient of [x] brought down exactly to the finer scale [s]. *)
Definition coefficient_at (Rad : Radix) (x : fixed_point) (s : Z) : Z :=
  _value x * radix_value Rad ^ (_scale x - s).

(** What a coefficient keeps and what it loses when its [d] low digits are
    dropped: truncation toward zero in base 10, the arithmetic right shift
    in base 2. *)
Definition kept (Rad : Radix) (v d : Z) : Z :=
  match Rad with
  | BASE_10 => Z.quot v (10 ^ d)
  | BASE_2 => v / 2 ^ d
  end.

Definition dropped (Rad : Radix) (v d : Z) : Z :=
  match Rad with
  | BASE_10 => Z.rem v (10 ^ d)
  | BASE_2 => v mod 2 ^ d
  end.

(** The number a string of decimal digits denotes, to read renderings back. *)
Definition digit_value (c : ascii) : Z := Z.of_nat (nat_of_ascii c) - 48.

Fixpoint decimal_value (s : string) : Z :=
  match s with
  | EmptyString => 0
  | String c s' =>
      digit_value c * 10 ^ Z.of_nat (String.length s') + decimal_value s'
  end.

(** The rendering of section 4.3.5 of the specification, word for word:
    sign, integer part, point, fraction padded on the left with zeros to
    width [-scale]; for a scale that is not negative the coefficient followed
    by [scale] zeros. *)
Definition pad_left (width : Z) (s : string) : string :=
  (string_fill (width - size s) "0"%char ++ s)%string.

Definition spec_to_string (coefficient scale : Z) : string :=
  if scale <? 0 then
    let av := Z.abs coefficient in
    let n := 10 ^ (- scale) in
    let integer_part := av / n in
    let frac_part := av mod n in
    let sign := if coefficient <? 0 then "-"%string else EmptyString in
    (sign ++ detail.to_string integer_part ++ "."
          ++ pad_left (- scale) (detail.to_string frac_part))%string
  else
    (detail.to_string coefficient ++ string_fill scale "0"%char)%string.

(** * Properties *)

(** ** Conversions and the usual arithmetic conversions *)

Section CastFacts.

Lemma bits_pos (T : ctype) : 0 < bits T.
Proof. destruct T as [sg []]; reflexivity. Qed.

Lemma modulus_split (T : ctype) : 2 ^ bits T = 2 * 2 ^ (bits T - 1).
Proof.
  pose proof (bits_pos T).
  replace (bits T) with (Z.succ (bits T - 1)) at 1 by lia.
  apply Z.pow_succ_r. lia.
Qed.

Lemma half_modulus_pos (T : ctype) : 0 < 2 ^ (bits T - 1).
Proof. pose proof (bits_pos T). apply Z.pow_pos_nonneg; lia. Qed.

Lemma cast_id (T : ctype) (z : Z) : in_range T z -> cast T z = z.
Proof.
  unfold in_range, min_of, max_of, cast.
  pose proof (modulus_split T). pose proof (half_modulus_pos T).
  destruct (is_signed T); intros Hz.
  - rewrite Z.mod_small; lia.
  - apply Z.mod_small. lia.
Qed.

Lemma cast_in_range (T : ctype) (z : Z) : in_range T (cast T z).
Proof.
  unfold in_range, min_of, max_of, cast.
  pose proof (modulus_split T). pose proof (half_modulus_pos T).
  destruct (is_signed T).
  - pose proof (Z.mod_pos_bound (z + 2 ^ (bits T - 1)) (2 ^ bits T)). lia.
  - pose proof (Z.mod_pos_bound z (2 ^ bits T)). lia.
Qed.

(** [cast T z] is congruent to [z] modulo [2^bits T]. *)
Lemma cast_mod (T : ctype) (z : Z) : cast T z mod 2 ^ bits T = z mod 2 ^ bits T.
Proof.
  unfold cast. destruct (is_signed T).
  - rewrite Zminus_mod_idemp_l. f_equal. lia.
  - apply Z.mod_mod. pose proof (half_modulus_pos T).
    pose proof (modulus_split T). lia.
Qed.

Lemma cast_congr (T : ctype) (a b : Z) :
  a mod 2 ^ bits T = b mod 2 ^ bits T -> cast T a = cast T b.
Proof.
  intros H. unfold cast. destruct (is_signed T).
  - f_equal. rewrite (Z.add_mod a), (Z.add_mod b), H; trivial;
      pose proof (half_modulus_pos T); pose proof (modulus_split T); lia.
  - exact H.
Qed.

Lemma cast_idem (T : ctype) (z : Z) : cast T (cast T z) = cast T z.
Proof. apply cast_id, cast_in_range. Qed.

(** Congruence modulo the wider modulus gives congruence modulo the
    narrower one. *)
Lemma cast_mod_narrow (T C : ctype) (z : Z) :
  bits T <= bits C -> cast C z mod 2 ^ bits T = z mod 2 ^ bits T.
Proof.
  intros Hle. pose proof (bits_pos T).
  assert (Hdiv : 2 ^ bits C = 2 ^ bits T * 2 ^ (bits C - bits T)).
  { rewrite <- Z.pow_add_r by lia. f_equal. lia. }
  assert (Hpos : 0 < 2 ^ bits T) by (apply Z.pow_pos_nonneg; lia).
  assert (Hpos' : 0 < 2 ^ (bits C - bits T)) by (apply Z.pow_pos_nonneg; lia).
  pose proof (cast_mod C z) as Hc.
  rewrite Hdiv in Hc.
  rewrite <- (Z.mod_mod_divide (cast C z) (2 ^ bits T * 2 ^ (bits C - bits T)) (2 ^ bits T)).
  - rewrite Hc. apply Z.mod_mod_divide. exists (2 ^ (bits C - bits T)). lia.
  - exists (2 ^ (bits C - bits T)). lia.
Qed.

Lemma cast_cast_narrow (T C : ctype) (z : Z) :
  bits T <= bits C -> cast T (cast C z) = cast T z.
Proof. intros H. apply cast_congr, cast_mod_narrow, H. Qed.

(** The common type is at least as wide as either operand. *)
Lemma common_type_bits_l (A B : ctype) : bits A <= bits (common_type A B).
Proof. destruct A as [[] []], B as [[] []]; vm_compute; discriminate. Qed.

Lemma common_type_bits_r (A B : ctype) : bits B <= bits (common_type A B).
Proof. destruct A as [[] []], B as [[] []]; vm_compute; discriminate. Qed.

Lemma common_type_max_l (A B : ctype) : max_of A <= max_of (common_type A B).
Proof. destruct A as [[] []], B as [[] []]; vm_compute; discriminate. Qed.

Lemma common_type_max_r (A B : ctype) : max_of B <= max_of (common_type A B).
Proof. destruct A as [[] []], B as [[] []]; vm_compute; discriminate. Qed.

(** A signed common type holds every value of the left operand's type. *)
Lemma common_type_min_l (A B : ctype) :
  is_signed (common_type A B) = true -> min_of (common_type A B) <= min_of A.
Proof. destruct A as [[] []], B as [[] []]; vm_compute; discriminate. Qed.

Lemma min_of_nonpos (T : ctype) : min_of T <= 0.
Proof. destruct T as [[] []]; vm_compute; discriminate. Qed.

Lemma max_of_pos (T : ctype) : 0 < max_of T.
Proof. destruct T as [[] []]; vm_compute; reflexivity. Qed.

Lemma unsigned_nonneg (T : ctype) (z : Z) :
  is_signed T = false -> in_range T z -> 0 <= z.
Proof. unfold in_range, min_of. intros ->. lia. Qed.

Lemma common_type_same (T : ctype) : 32 <= bits T -> common_type T T = T.
Proof. destruct T as [[] []]; vm_compute; intros H; try reflexivity; now elim H. Qed.

Lemma promote_wide (T : ctype) : 32 <= bits T -> promote T = T.
Proof. destruct T as [[] []]; vm_compute; intros H; try reflexivity; now elim H. Qed.

Lemma rep_bits_ge (R : rep) : 32 <= bits R.
Proof. destruct R; vm_compute; discriminate. Qed.

Lemma rep_limits (R : rep) : max_of R = - min_of R - 1.
Proof. destruct R; reflexivity. Qed.

Lemma small_in_rep (R : rep) (k : Z) : -1 <= k <= 1 -> in_range R k.
Proof.
  unfold in_range. intros Hk.
  assert (min_of R <= -1) by (destruct R; vm_compute; discriminate).
  assert (1 <= max_of R) by (destruct R; vm_compute; discriminate). lia.
Qed.

Lemma common_type_rep (R : rep) : common_type R R = R.
Proof. destruct R; reflexivity. Qed.

Lemma cast_zero (T : ctype) : cast T 0 = 0.
Proof. apply cast_id. pose proof (min_of_nonpos T). pose proof (max_of_pos T).
  unfold in_range. lia. Qed.

Lemma in_rangeb_spec (T : ctype) (z : Z) : in_rangeb T z = true <-> in_range T z.
Proof. unfold in_rangeb, in_range. rewrite andb_true_iff, !Z.leb_le. tauto. Qed.

End CastFacts.

(** ** Arithmetic on typed operands *)

Section ArithFacts.

(** The product, returned as a [T], is the product reduced to [T], whatever
    the type of the multiplier. *)
Lemma ret_c_mul (T L : ctype) (v l : Z) :
  ret T (c_mul (T, v) (L, l)) = cast T (v * l).
Proof.
  unfold ret, c_mul, binop; cbn [fst snd].
  set (C := common_type T L).
  assert (HT : bits T <= bits C) by apply common_type_bits_l.
  rewrite cast_cast_narrow by exact HT.
  apply cast_congr.
  pose proof (bits_pos T).
  assert (0 < 2 ^ bits T) by (apply Z.pow_pos_nonneg; lia).
  rewrite Z.mul_mod by lia.
  rewrite !cast_mod_narrow by exact HT.
  rewrite <- Z.mul_mod by lia. reflexivity.
Qed.

Lemma quot_in_range (T : ctype) (v l : Z) :
  in_range T v -> 0 < l -> in_range T (Z.quot v l).
Proof.
  unfold in_range. intros Hv Hl.
  pose proof (min_of_nonpos T). pose proof (max_of_pos T).
  destruct (Z_le_gt_dec 0 v).
  - pose proof (Z.quot_pos v l). pose proof (Z.quot_le_upper_bound v l v).
    assert (v <= l * v) by nia. lia.
  - pose proof (Z.quot_opp_l v l). pose proof (Z.quot_pos (- v) l).
    pose proof (Z.quot_le_upper_bound (- v) l (- v)).
    assert (- v <= l * - v) by nia. lia.
Qed.

(** The quotient by a positive literal is the truncated quotient as soon as
    the dividend survives the conversion to the common type: the common type
    is signed, or the dividend is not negative. *)
Lemma ret_c_div (T L : ctype) (v l : Z) :
  in_range T v -> in_range L l -> 0 < l ->
  is_signed (common_type T L) = true \/ 0 <= v ->
  ret T (c_div (T, v) (L, l)) = Z.quot v l.
Proof.
  intros Hv Hl Hpos Hconv.
  unfold ret, c_div, binop; cbn [fst snd].
  set (C := common_type T L) in *.
  assert (HvC : in_range C v).
  { unfold in_range in *. pose proof (common_type_max_l T L).
    pose proof (min_of_nonpos C). fold C in H.
    destruct Hconv as [Hs | Hnn]; [ | lia ].
    pose proof (common_type_min_l T L Hs). fold C in H1. lia. }
  assert (HlC : in_range C l).
  { unfold in_range in *. pose proof (common_type_max_r T L).
    pose proof (min_of_nonpos C). fold C in H. lia. }
  rewrite (cast_id C v HvC), (cast_id C l HlC).
  rewrite (cast_id C) by (apply quot_in_range; assumption).
  apply cast_id, quot_in_range; assumption.
Qed.

(** A signed literal never forces a conversion that loses the sign. *)
Lemma signed_literal_keeps_sign (T L : ctype) (v : Z) :
  is_signed L = true -> in_range T v ->
  is_signed (common_type T L) = true \/ 0 <= v.
Proof.
  intros HL Hv.
  destruct (is_signed T) eqn:HT.
  - left. destruct T as [[] []], L as [[] []]; try discriminate; reflexivity.
  - right. eapply unsigned_nonneg; eassumption.
Qed.

End ArithFacts.

(** ** The power-of-10 kernels *)

Section Kernels.

Variable T : ctype.
Variable v : Z.
Hypothesis v_in_T : in_range T v.

Lemma mul_arm (k : cval) (e : Z) :
  snd k = 10 ^ e -> ret T (c_mul (T, v) k) = cast T (v * 10 ^ e).
Proof. destruct k as [L l]; cbn [snd]; intros <-. apply ret_c_mul. Qed.

Lemma div_arm (k : cval) (e : Z) :
  snd k = 10 ^ e -> 0 <= e -> in_range (fst k) (snd k) ->
  is_signed (common_type T (fst k)) = true \/ 0 <= v ->
  ret T (c_div (T, v) k) = Z.quot v (10 ^ e).
Proof.
  destruct k as [L l]; cbn [fst snd]; intros -> He Hl Hs.
  apply ret_c_div; trivial. apply Z.pow_pos_nonneg; lia.
Qed.

Lemma div_arm_signed (k : cval) (e : Z) :
  snd k = 10 ^ e -> 0 <= e -> in_range (fst k) (snd k) ->
  is_signed (fst k) = true ->
  ret T (c_div (T, v) k) = Z.quot v (10 ^ e).
Proof.
  intros. apply div_arm; trivial.
  apply signed_literal_keeps_sign; assumption.
Qed.

End Kernels.

(** Case analysis on an exponent known to lie in a literal range. *)
Ltac enum_exp e lo n :=
  lazymatch n with
  | O => exfalso; lia
  | S ?n' =>
      let H := fresh "Hne" in
      destruct (Z.eq_dec e lo) as [H | H];
      [ subst e
      | let lo' := eval compute in (lo + 1) in enum_exp e lo' n' ]
  end.

Ltac closed_range := vm_compute; split; discriminate.

Ltac solve_div_arm :=
  apply div_arm_signed;
  [ assumption | vm_compute; reflexivity | lia | closed_range | reflexivity ].

Lemma multiply_power10_32bit_spec (T : ctype) (v e : Z) :
  in_range T v -> 0 <= e <= 9 ->
  detail.multiply_power10_32bit T v e = cast T (v * 10 ^ e).
Proof.
  intros Hv He. enum_exp e 0 10%nat;
    lazy beta iota zeta delta [detail.multiply_power10_32bit];
    try (apply mul_arm; vm_compute; reflexivity).
  rewrite Z.mul_1_r. symmetry. apply cast_id, Hv.
Qed.

Lemma multiply_power10_64bit_spec (T : ctype) (v e : Z) :
  in_range T v -> 0 <= e <= 19 ->
  detail.multiply_power10_64bit T v e = cast T (v * 10 ^ e).
Proof.
  intros Hv He. enum_exp e 0 20%nat;
    lazy beta iota zeta delta [detail.multiply_power10_64bit];
    try (apply mul_arm; vm_compute; reflexivity).
  rewrite Z.mul_1_r. symmetry. apply cast_id, Hv.
Qed.

Lemma multiply_power10_128bit_spec (T : ctype) (v e : Z) :
  in_range T v -> 0 <= e <= 38 ->
  detail.multiply_power10_128bit T v e = cast T (v * 10 ^ e).
Proof.
  intros Hv He. enum_exp e 0 39%nat;
    lazy beta iota zeta delta [detail.multiply_power10_128bit];
    try (apply mul_arm; vm_compute; reflexivity).
  rewrite Z.mul_1_r. symmetry. apply cast_id, Hv.
Qed.

Lemma divide_power10_32bit_spec (T : ctype) (v e : Z) :
  in_range T v -> 0 <= e <= 9 ->
  detail.divide_power10_32bit T v e = Z.quot v (10 ^ e).
Proof.
  intros Hv He. enum_exp e 0 10%nat;
    lazy beta iota zeta delta [detail.divide_power10_32bit];
    try solve_div_arm.
  symmetry. apply Z.quot_1_r.
Qed.

(** The 64-bit division kernel is right for every exponent up to 18, and at
    19 as long as the conversion to [unsigned long long] that the literal
    [10000000000000000000ULL] forces keeps the dividend. *)
Lemma divide_power10_64bit_spec (T : ctype) (v e : Z) :
  in_range T v -> 0 <= e <= 19 ->
  (e = 19 -> is_signed (common_type T unsigned_long_long_t) = true \/ 0 <= v) ->
  detail.divide_power10_64bit T v e = Z.quot v (10 ^ e).
Proof.
  intros Hv He H19. enum_exp e 0 20%nat;
    lazy beta iota zeta delta [detail.divide_power10_64bit];
    try solve_div_arm.
  - symmetry. apply Z.quot_1_r.
  - apply div_arm; [ assumption | vm_compute; reflexivity | lia | closed_range | ].
    apply H19. reflexivity.
Qed.

Lemma divide_power10_128bit_spec (T : ctype) (v e : Z) :
  in_range T v -> 0 <= e <= 38 ->
  detail.divide_power10_128bit T v e = Z.quot v (10 ^ e).
Proof.
  intros Hv He. enum_exp e 0 39%nat;
    lazy beta iota zeta delta [detail.divide_power10_128bit];
    try solve_div_arm.
  symmetry. apply Z.quot_1_r.
Qed.

(** Every exponent that no [case] label matches reaches [default: return 0]. *)
Ltac reach_default p :=
  lazy beta iota zeta
    delta [detail.divide_power10_32bit detail.divide_power10_64bit
           detail.divide_power10_128bit detail.multiply_power10_32bit
           detail.multiply_power10_64bit detail.multiply_power10_128bit];
  first [ apply cast_zero
        | exfalso; lia
        | destruct p as [p | p | ]; reach_default p ].

Lemma kernel_default_zero (k : kernel_width) (T : ctype) (v e : Z) :
  ~ (0 <= e <= kernel_range k) ->
  divide_power10_Nbit k T v e = 0 /\ multiply_power10_Nbit k T v e = 0.
Proof.
  intros Hout.
  destruct k; cbn [kernel_range divide_power10_Nbit multiply_power10_Nbit] in *;
    (split;
     (destruct e as [ | p | p ];
      [ exfalso; lia | reach_default p | apply cast_zero ])).
Qed.

Lemma multiply_power10_dispatch (R : rep) (T : ctype) (v e : Z) :
  detail.multiply_power10 R T v e = multiply_power10_Nbit (rep_kernel R) T v e.
Proof. destruct R; reflexivity. Qed.

Lemma divide_power10_dispatch (R : rep) (T : ctype) (v e : Z) :
  detail.divide_power10 R T v e = divide_power10_Nbit (rep_kernel R) T v e.
Proof. destruct R; reflexivity. Qed.

Lemma multiply_power10_spec (R : rep) (T : ctype) (v e : Z) :
  in_range T v -> 0 <= e <= kernel_range (rep_kernel R) ->
  detail.multiply_power10 R T v e = cast T (v * 10 ^ e).
Proof.
  intros Hv He. rewrite multiply_power10_dispatch.
  destruct R; cbn [rep_kernel kernel_range multiply_power10_Nbit] in *.
  - apply multiply_power10_32bit_spec; assumption.
  - apply multiply_power10_64bit_spec; assumption.
  - apply multiply_power10_128bit_spec; assumption.
Qed.

Lemma divide_power10_spec (R : rep) (T : ctype) (v e : Z) :
  in_range T v -> 0 <= e <= kernel_range (rep_kernel R) ->
  (R = Rep64 -> e = 19 ->
   is_signed (common_type T unsigned_long_long_t) = true \/ 0 <= v) ->
  detail.divide_power10 R T v e = Z.quot v (10 ^ e).
Proof.
  intros Hv He H19. rewrite divide_power10_dispatch.
  destruct R; cbn [rep_kernel kernel_range divide_power10_Nbit] in *.
  - apply divide_power10_32bit_spec; assumption.
  - apply divide_power10_64bit_spec; auto.
  - apply divide_power10_128bit_spec; assumption.
Qed.

Lemma multiply_power10_out_of_range (R : rep) (T : ctype) (v e : Z) :
  ~ (0 <= e <= kernel_range (rep_kernel R)) ->
  detail.multiply_power10 R T v e = 0.
Proof.
  intros H. rewrite multiply_power10_dispatch.
  apply (kernel_default_zero (rep_kernel R) T v e H).
Qed.

Lemma divide_power10_out_of_range (R : rep) (T : ctype) (v e : Z) :
  ~ (0 <= e <= kernel_range (rep_kernel R)) ->
  detail.divide_power10 R T v e = 0.
Proof.
  intros H. rewrite divide_power10_dispatch.
  apply (kernel_default_zero (rep_kernel R) T v e H).
Qed.

(** What the 64-bit division kernel computes at exponent 19 for a negative
    dividend of a signed type of at most 64 bits: the dividend is converted
    to [unsigned long long] before the division. *)
Lemma divide_power10_64bit_unsigned_19 (T : ctype) (v : Z) :
  is_signed T = true -> width_of T <> W128 -> in_range T v -> v < 0 ->
  detail.divide_power10_64bit T v 19 = (v + 2 ^ 64) / 10 ^ 19.
Proof.
  intros Hs Hw Hv Hneg.
  lazy beta iota zeta delta [detail.divide_power10_64bit].
  unfold ret, c_div, binop, ULL; cbn [fst snd].
  assert (HC : common_type T unsigned_long_long_t = uint64_t).
  { destruct T as [[] []]; try discriminate; try reflexivity. now elim Hw. }
  rewrite HC.
  assert (Hlow : - 2 ^ 63 <= v).
  { assert (- 2 ^ 63 <= min_of T)
      by (destruct T as [[] []]; try discriminate; try (now elim Hw);
          vm_compute; discriminate).
    unfold in_range in Hv. lia. }
  assert (Hcv : cast uint64_t v = v + 2 ^ 64).
  { unfold cast; cbn [is_signed uint64_t bits width_of bits_of].
    rewrite <- (Z.mod_add v 1 (2 ^ 64)) by lia.
    apply Z.mod_small. lia. }
  rewrite Hcv.
  rewrite (cast_id uint64_t 10000000000000000000) by closed_range.
  rewrite Z.quot_div_nonneg by lia.
  change 10000000000000000000 with (10 ^ 19).
  assert (Hq : 0 <= (v + 2 ^ 64) / 10 ^ 19 <= 1).
  { split.
    - apply Z.div_pos; lia.
    - apply Z.lt_succ_r. apply Z.div_lt_upper_bound; lia. }
  rewrite (cast_id uint64_t).
  - apply cast_id. unfold in_range.
    pose proof (min_of_nonpos T).
    assert (1 <= max_of T) by (pose proof (max_of_pos T); lia). lia.
  - unfold in_range. change (min_of uint64_t) with 0.
    change (max_of uint64_t) with (2 ^ 64 - 1). lia.
Qed.

(** ** Scale arithmetic and the shift dispatcher *)

Section ShiftFacts.

Lemma neg32 (s : Z) :
  in_range int32_t s -> snd (c_neg (int32_t, s)) = cast int32_t (- s).
Proof.
  intros Hs. unfold c_neg; cbn [fst snd].
  rewrite (promote_wide int32_t) by (vm_compute; discriminate).
  now rewrite (cast_id int32_t s Hs).
Qed.

Lemma neg32_cases (s : Z) :
  in_range int32_t s ->
  cast int32_t (- s) = if s =? - 2 ^ 31 then - 2 ^ 31 else - s.
Proof.
  unfold in_range. change (min_of int32_t) with (- 2 ^ 31).
  change (max_of int32_t) with (2 ^ 31 - 1). intros Hs.
  destruct (Z.eqb_spec s (- 2 ^ 31)) as [-> | Hne].
  - reflexivity.
  - apply cast_id. unfold in_range. change (min_of int32_t) with (- 2 ^ 31).
    change (max_of int32_t) with (2 ^ 31 - 1). lia.
Qed.

Lemma sub32 (a b : Z) :
  in_range int32_t a -> in_range int32_t b ->
  snd (c_sub (int32_t, a) (int32_t, b)) = cast int32_t (a - b).
Proof.
  intros Ha Hb. unfold c_sub, binop; cbn [fst snd].
  change (common_type int32_t int32_t) with int32_t.
  now rewrite (cast_id int32_t a Ha), (cast_id int32_t b Hb).
Qed.

Lemma small_in_int32 (d : Z) : -128 <= d <= 128 -> in_range int32_t d.
Proof.
  unfold in_range. change (min_of int32_t) with (- 2 ^ 31).
  change (max_of int32_t) with (2 ^ 31 - 1). lia.
Qed.

Lemma shift_range_small (R : rep) (Rad : Radix) : 0 < shift_range R Rad <= 127.
Proof. destruct R, Rad; vm_compute; split; (reflexivity || discriminate). Qed.

Lemma radix_pow_pos (Rad : Radix) (d : Z) : 0 <= d -> 0 < radix_value Rad ^ d.
Proof. intros. apply Z.pow_pos_nonneg; [ destruct Rad; reflexivity | assumption ]. Qed.

Variable R : rep.
Variable Rad : Radix.

(** A negative scale multiplies the value by the radix raised to its
    magnitude, in the representation type. *)
Lemma shift_left_spec (v d : Z) :
  in_range R v -> 0 < d <= shift_range R Rad ->
  detail.shift R Rad R v (- d) = cast R (v * radix_value Rad ^ d).
Proof.
  intros Hv Hd. pose proof (shift_range_small R Rad) as Hsr.
  unfold detail.shift.
  destruct (Z.eqb_spec (- d) 0); [ lia | ].
  destruct (Z.gtb_spec (- d) 0); [ lia | ].
  unfold detail.left_shift.
  rewrite (cast_id int32_t (- d)) by (apply small_in_int32; lia).
  rewrite neg32 by (apply small_in_int32; lia).
  rewrite Z.opp_involutive.
  rewrite (cast_id int32_t d) by (apply small_in_int32; lia).
  destruct Rad; cbn [radix_value shift_range] in *.
  - unfold ret, c_shl; cbn [fst snd].
    rewrite (promote_wide R) by apply rep_bits_ge.
    rewrite cast_idem, (cast_id R v Hv), Z.shiftl_mul_pow2 by lia.
    reflexivity.
  - apply multiply_power10_spec; [ assumption | lia ].
Qed.

Lemma div_pow_in_range (v k : Z) : in_range R v -> 0 < k -> in_range R (v / k).
Proof.
  unfold in_range. intros Hv Hk.
  pose proof (min_of_nonpos R). pose proof (max_of_pos R).
  destruct (Z_le_gt_dec 0 v).
  - pose proof (Z.div_pos v k). pose proof (Z.div_le_upper_bound v k v).
    assert (v <= k * v) by nia. lia.
  - pose proof (Z.div_le_lower_bound v k v Hk).
    pose proof (Z.div_le_upper_bound v k 0 Hk).
    assert (k * v <= v) by nia. lia.
Qed.

(** A positive scale divides: truncated division by a power of ten in base
    10, the arithmetic right shift in base 2. *)
Lemma shift_right_spec (v d : Z) :
  in_range R v -> 0 < d <= shift_range R Rad ->
  (R = Rep64 -> Rad = BASE_10 -> d = 19 -> 0 <= v) ->
  detail.shift R Rad R v d =
  match Rad with
  | BASE_10 => Z.quot v (10 ^ d)
  | BASE_2 => v / 2 ^ d
  end.
Proof.
  intros Hv Hd H19. pose proof (shift_range_small R Rad) as Hsr.
  unfold detail.shift.
  destruct (Z.eqb_spec d 0); [ lia | ].
  destruct (Z.gtb_spec d 0); [ | lia ].
  unfold detail.right_shift.
  rewrite (cast_id int32_t d) by (apply small_in_int32; lia).
  destruct Rad; cbn [shift_range] in *.
  - unfold ret, c_shr; cbn [fst snd].
    rewrite (promote_wide R) by apply rep_bits_ge.
    rewrite cast_idem, (cast_id R v Hv), Z.shiftr_div_pow2 by lia.
    apply cast_id, div_pow_in_range; [ assumption | ].
    apply Z.pow_pos_nonneg; lia.
  - apply divide_power10_spec; [ assumption | lia | ].
    intros HR Hd19. right. apply H19; trivial.
Qed.

(** Rescaling to a finer scale multiplies the coefficient exactly, as long
    as the product fits. *)
Lemma rescaled_down (x : fixed_point) (s : Z) :
  well_typed R x -> in_range int32_t s ->
  0 <= _scale x - s <= shift_range R Rad ->
  in_range R (coefficient_at Rad x s) ->
  rescaled R Rad x s = {| _value := coefficient_at Rad x s; _scale := s |}.
Proof.
  intros [Hv Hsx] Hs Hd Hfit. pose proof (shift_range_small R Rad) as Hsr.
  unfold rescaled, coefficient_at in *.
  destruct (Z.eqb_spec s (_scale x)) as [-> | Hne].
  - rewrite Z.sub_diag, Z.pow_0_r, Z.mul_1_r. now destruct x.
  - rewrite sub32 by assumption.
    rewrite (cast_id int32_t) by (apply small_in_int32; lia).
    replace (s - _scale x) with (- (_scale x - s)) by lia.
    rewrite shift_left_spec by (trivial; lia).
    rewrite (cast_id R _ Hfit). reflexivity.
Qed.

(** Zero stays zero under every shift, the out-of-range ones included. *)
Lemma shift_zero (k : Z) : detail.shift R Rad R 0 k = 0.
Proof.
  assert (Hz : in_range R 0).
  { unfold in_range. pose proof (min_of_nonpos R). pose proof (max_of_pos R). lia. }
  unfold detail.shift.
  destruct (Z.eqb_spec k 0); [ reflexivity | ].
  destruct (Z.gtb_spec k 0).
  - unfold detail.right_shift. destruct Rad.
    + unfold ret, c_shr; cbn [fst snd].
      now rewrite cast_zero, Z.shiftr_0_l, !cast_zero.
    + set (e := cast int32_t k).
      destruct (Z_le_gt_dec 0 e);
        [ destruct (Z_le_gt_dec e (kernel_range (rep_kernel R))) | ].
      * rewrite divide_power10_spec;
          [ | assumption | lia | intros _ _; right; lia ].
        apply Z.quot_0_l. apply Z.pow_nonzero; lia.
      * apply divide_power10_out_of_range. lia.
      * apply divide_power10_out_of_range. lia.
  - unfold detail.left_shift. destruct Rad.
    + unfold ret, c_shl; cbn [fst snd].
      now rewrite cast_zero, Z.shiftl_0_l, !cast_zero.
    + set (e := snd (c_neg (int32_t, cast int32_t k))).
      destruct (Z_le_gt_dec 0 e);
        [ destruct (Z_le_gt_dec e (kernel_range (rep_kernel R))) | ].
      * rewrite multiply_power10_spec; [ | assumption | lia ].
        now rewrite Z.mul_0_l, cast_zero.
      * apply multiply_power10_out_of_range. lia.
      * apply multiply_power10_out_of_range. lia.
Qed.

(** Beyond the range of the shift only the coefficient zero has an exact
    rescaling that fits. *)
Lemma beyond_shift_range_zero (v d : Z) :
  shift_range R Rad < d -> in_range R (v * radix_value Rad ^ d) -> v = 0.
Proof.
  intros Hd Hfit. pose proof (shift_range_small R Rad) as Hsr.
  assert (Hbig : max_of R + 1 < radix_value Rad ^ (shift_range R Rad + 1))
    by (destruct R, Rad; reflexivity).
  assert (Hmono : radix_value Rad ^ (shift_range R Rad + 1) <= radix_value Rad ^ d).
  { apply Z.pow_le_mono_r; [ destruct Rad; reflexivity | lia ]. }
  pose proof (rep_limits R). unfold in_range in Hfit. nia.
Qed.

(** The same for every finer scale: past the range of the shift the
    coefficient is zero, and zero is what the shift returns. *)
Lemma rescaled_finer (x : fixed_point) (s : Z) :
  well_typed R x -> in_range int32_t s ->
  s <= _scale x ->
  in_range R (coefficient_at Rad x s) ->
  rescaled R Rad x s = {| _value := coefficient_at Rad x s; _scale := s |}.
Proof.
  intros Hx Hs Hle Hfit.
  destruct (Z_le_gt_dec (_scale x - s) (shift_range R Rad)) as [Hin | Hout].
  - apply rescaled_down; trivial. lia.
  - pose proof (shift_range_small R Rad) as Hsr.
    unfold coefficient_at in *.
    assert (Hv0 : _value x = 0) by (eapply beyond_shift_range_zero; eauto; lia).
    unfold rescaled. destruct (Z.eqb_spec s (_scale x)); [ lia | ].
    rewrite Hv0, shift_zero, Z.mul_0_l. reflexivity.
Qed.

Lemma rescaled_same (x : fixed_point) : rescaled R Rad x (_scale x) = x.
Proof. unfold rescaled. now rewrite Z.eqb_refl. Qed.

End ShiftFacts.

(** ** The contract of the kernels *)

(** C1.  The documented contract of the division kernels, [value / 10^exp10]
    truncated toward zero for every in-range exponent, fails in the 64-bit
    kernel at [exp10 = 19]: the literal [10000000000000000000ULL] converts a
    negative [int64_t] dividend to [unsigned long long], so every dividend
    from [10^19 - 2^64] to [-1] yields 1, where the truncated quotient is 0. *)
Theorem divide_power10_64bit_negative_at_19 (value : Z) :
  10 ^ 19 - 2 ^ 64 <= value < 0 ->
  detail.divide_power10_64bit int64_t value 19 = 1 /\
  Z.quot value (10 ^ 19) = 0.
Proof.
  intros Hv. split.
  - rewrite divide_power10_64bit_unsigned_19; try reflexivity; try discriminate.
    + symmetry. apply Z.div_unique with (r := value + 2 ^ 64 - 10 ^ 19); lia.
    + unfold in_range. change (min_of int64_t) with (- 2 ^ 63).
      change (max_of int64_t) with (2 ^ 63 - 1). lia.
    + lia.
  - rewrite <- (Z.opp_involutive value), Z.quot_opp_l by lia.
    rewrite Z.quot_small; lia.
Qed.

Lemma divide_power10_64bit_negative_at_19_witness :
  detail.divide_power10_64bit int64_t (-1) 19 = 1 /\ Z.quot (-1) (10 ^ 19) = 0.
Proof. apply (divide_power10_64bit_negative_at_19 (-1)). lia. Defined.

(** The same defect seen from the value type: rescaling the [decimal64]
    coefficient -1 from scale 0 to scale 19 gives the coefficient 1. *)
Lemma rescaled_decimal64_negative_19 :
  rescaled Rep64 BASE_10 {| _value := -1; _scale := 0 |} 19 =
  {| _value := 1; _scale := 19 |}.
Proof. reflexivity. Qed.

(** C8.  Outside the documented range of a kernel, negative exponents
    included, the division and the multiplication kernel of every width
    return zero, for every type and value of the operand. *)
Theorem power10_kernels_out_of_range_zero
    (k : kernel_width) (T : ctype) (value exp10 : Z) :
  exp10 < 0 \/ kernel_range k < exp10 ->
  divide_power10_Nbit k T value exp10 = 0 /\
  multiply_power10_Nbit k T value exp10 = 0.
Proof. intros H. apply kernel_default_zero. lia. Qed.

Lemma power10_kernels_out_of_range_zero_witness :
  (divide_power10_Nbit K32 int32_t 123456789 10 = 0 /\
   multiply_power10_Nbit K32 int32_t 123456789 10 = 0) /\
  (divide_power10_Nbit K64 int64_t (-5) (-1) = 0 /\
   multiply_power10_Nbit K64 int64_t (-5) (-1) = 0).
Proof.
  split.
  - apply (power10_kernels_out_of_range_zero K32 int32_t 123456789 10).
    right. reflexivity.
  - apply (power10_kernels_out_of_range_zero K64 int64_t (-5) (-1)).
    left. reflexivity.
Defined.

(** ** Construction and rescaling *)

(** C2, as the code has it.  The scaled constructor stores
    [shift<Rep, Rad>(Rep(value), scale)] and the scale: in base 10, within
    the range of the kernel, the value times [10^(-scale)] for a negative
    scale and the value divided by [10^scale] for a positive one.  For
    [decimal32], [(150, -2)] stores the coefficient 15000 and the scale -2,
    and [(150, 2)] stores the coefficient 1 and the scale 2. *)
Theorem fixed_point_ctor_stores_shift :
  (forall (R : rep) (Rad : Radix) (T : ctype) (value scale : Z),
      fixed_point_ctor R Rad T value scale =
      {| _value := detail.shift R Rad R (cast R value) scale;
         _scale := scale |}) /\
  (forall (R : rep) (T : ctype) (value scale : Z),
      in_range R value ->
      - kernel_range (rep_kernel R) <= scale < 0 ->
      fixed_point_ctor R BASE_10 T value scale =
      {| _value := cast R (value * 10 ^ (- scale)); _scale := scale |}) /\
  (forall (R : rep) (T : ctype) (value scale : Z),
      in_range R value ->
      0 < scale <= kernel_range (rep_kernel R) ->
      (R = Rep64 -> scale = 19 -> 0 <= value) ->
      fixed_point_ctor R BASE_10 T value scale =
      {| _value := Z.quot value (10 ^ scale); _scale := scale |}) /\
  fixed_point_ctor Rep32 BASE_10 int_t 150 (-2) =
    {| _value := 15000; _scale := -2 |} /\
  fixed_point_ctor Rep32 BASE_10 int_t 150 2 =
    {| _value := 1; _scale := 2 |}.
Proof.
  split; [ reflexivity | ].
  split; [ | split; [ | split; reflexivity ] ].
  - intros R T value scale Hv Hs. unfold fixed_point_ctor. f_equal.
    rewrite (cast_id R value Hv).
    replace scale with (- - scale) at 1 by lia.
    apply (shift_left_spec R BASE_10); [ assumption | cbn [shift_range]; lia ].
  - intros R T value scale Hv Hs H19. unfold fixed_point_ctor. f_equal.
    rewrite (cast_id R value Hv).
    apply (shift_right_spec R BASE_10); [ assumption | cbn [shift_range]; lia | ].
    intros HR _ Hsc. apply H19; assumption.
Qed.

Lemma fixed_point_ctor_stores_shift_witness :
  fixed_point_ctor Rep64 BASE_10 int_t (-7) (-18) =
    {| _value := -7000000000000000000; _scale := -18 |} /\
  fixed_point_ctor Rep64 BASE_10 int_t (-7) 1 =
    {| _value := 0; _scale := 1 |}.
Proof.
  destruct fixed_point_ctor_stores_shift as (_ & Hleft & Hright & _).
  split.
  - apply (Hleft Rep64 int_t (-7) (-18)).
    + closed_range.
    + cbn. lia.
  - apply (Hright Rep64 int_t (-7) 1).
    + closed_range.
    + cbn. lia.
    + intros _ H. discriminate H.
Defined.

(** C2 as stated fails: [decimal32(150, scale_type{-2})] does not store the
    coefficient 150. *)
Lemma fixed_point_ctor_150_not_stored :
  fixed_point_ctor Rep32 BASE_10 int_t 150 (-2) <>
  {| _value := 150; _scale := -2 |}.
Proof. vm_compute. discriminate. Qed.

(** C7.  Rescaling to a finer scale and back is the identity when the finer
    coefficient fits and the scale difference is within the range of the
    shift; rescaling to the own scale returns the value itself. *)
Theorem rescaled_round_trip (R : rep) (Rad : Radix) (x : fixed_point) (s' : Z) :
  well_typed R x -> in_range int32_t s' ->
  0 <= _scale x - s' <= shift_range R Rad ->
  in_range R (coefficient_at Rad x s') ->
  rescaled R Rad (rescaled R Rad x s') (_scale x) = x /\
  rescaled R Rad x (_scale x) = x.
Proof.
  intros Hx Hs' Hd Hfit. split; [ | apply rescaled_same ].
  rewrite (rescaled_down R Rad x s') by assumption.
  destruct Hx as [Hv Hsx]. pose proof (shift_range_small R Rad) as Hsr.
  unfold rescaled; cbn [_value _scale].
  destruct (Z.eqb_spec (_scale x) s') as [Heq | Hne].
  - unfold coefficient_at. rewrite <- Heq, Z.sub_diag, Z.pow_0_r, Z.mul_1_r.
    now destruct x.
  - rewrite sub32 by assumption.
    rewrite (cast_id int32_t) by (apply small_in_int32; lia).
    unfold fixed_point_of_scaled; cbn [value scale].
    unfold coefficient_at in *.
    set (d := _scale x - s') in *.
    rewrite shift_right_spec; try assumption; try lia.
    + replace (match Rad with
               | BASE_2 => _value x * radix_value Rad ^ d / 2 ^ d
               | BASE_10 => Z.quot (_value x * radix_value Rad ^ d) (10 ^ d)
               end) with (_value x); [ now destruct x | ].
      pose proof (radix_pow_pos Rad d).
      destruct Rad; cbn [radix_value] in *;
        [ rewrite Z.div_mul | rewrite Z.quot_mul ]; lia.
    + intros -> -> H19. rewrite H19 in Hfit |- *.
      cbn [radix_value] in Hfit |- *.
      unfold in_range in Hfit. cbn [rep_type] in Hfit.
      change (min_of int64_t) with (- 2 ^ 63) in Hfit.
      change (10 ^ 19) with 10000000000000000000 in *.
      change (2 ^ 63) with 9223372036854775808 in *. lia.
Qed.

Lemma rescaled_round_trip_witness :
  rescaled Rep32 BASE_10
    (rescaled Rep32 BASE_10 {| _value := -15; _scale := -1 |} (-4)) (-1) =
  {| _value := -15; _scale := -1 |} /\
  rescaled Rep32 BASE_10 {| _value := -15; _scale := -1 |} (-1) =
  {| _value := -15; _scale := -1 |}.
Proof.
  apply (rescaled_round_trip Rep32 BASE_10 {| _value := -15; _scale := -1 |} (-4)).
  - split; closed_range.
  - closed_range.
  - vm_compute. split; discriminate.
  - closed_range.
Defined.

(** ** The operators *)

Section OperatorFacts.

Variable R : rep.

Lemma add_rep (a b : Z) :
  in_range R a -> in_range R b ->
  snd (c_add (rep_type R, a) (rep_type R, b)) = cast R (a + b).
Proof.
  intros Ha Hb. unfold c_add, binop; cbn [fst snd].
  now rewrite common_type_rep, (cast_id R a Ha), (cast_id R b Hb).
Qed.

Lemma sub_rep (a b : Z) :
  in_range R a -> in_range R b ->
  snd (c_sub (rep_type R, a) (rep_type R, b)) = cast R (a - b).
Proof.
  intros Ha Hb. unfold c_sub, binop; cbn [fst snd].
  now rewrite common_type_rep, (cast_id R a Ha), (cast_id R b Hb).
Qed.

Lemma rem_in_range (a b : Z) :
  in_range R a -> in_range R b -> in_range R (Z.rem a b).
Proof.
  unfold in_range. intros Ha Hb. pose proof (rep_limits R).
  destruct (Z.eq_dec b 0) as [-> | Hnz].
  - now rewrite Z.rem_0_r_ext.
  - pose proof (Z.rem_bound_abs a b Hnz).
    destruct (Z_le_gt_dec 0 a).
    + pose proof (Z.rem_nonneg a b Hnz). lia.
    + pose proof (Z.rem_nonpos a b Hnz). lia.
Qed.

Lemma c_div_traps_false (a b : Z) :
  b <> 0 -> ~ (a = min_of R /\ b = -1) -> c_div_traps R a b = false.
Proof.
  intros Hb Hnot. unfold c_div_traps.
  destruct (Z.eqb_spec b 0); [ contradiction | ].
  destruct (Z.eqb_spec a (min_of R)), (Z.eqb_spec b (-1)); trivial.
  exfalso. tauto.
Qed.

Lemma c_div_traps_true (a b : Z) :
  c_div_traps R a b = true <-> b = 0 \/ (a = min_of R /\ b = -1).
Proof.
  unfold c_div_traps.
  rewrite orb_true_iff, andb_true_iff, !Z.eqb_eq. tauto.
Qed.

Lemma rem_rep (a b : Z) :
  in_range R a -> in_range R b ->
  snd (c_rem (rep_type R, a) (rep_type R, b)) = Z.rem a b.
Proof.
  intros Ha Hb. unfold c_rem, binop; cbn [fst snd].
  rewrite common_type_rep, (cast_id R a Ha), (cast_id R b Hb).
  apply cast_id, rem_in_range; assumption.
Qed.

End OperatorFacts.

(** C5.  With [s* = min(lhs.scale, rhs.scale)] and rescaled coefficients
    that fit the representation type, both operands are brought to [s*]:
    the one that already has it is unchanged, the other has its coefficient
    multiplied by the power of the radix that separates the scales.  Sum,
    difference, remainder and the six comparisons are then taken on these
    coefficients, and the arithmetic results carry [s*].  The remainder
    exists for a divisor other than zero, [min % -1] excepted. *)
Theorem operators_rescale_to_min_scale
    (R : rep) (Rad : Radix) (lhs rhs : fixed_point) :
  well_typed R lhs -> well_typed R rhs ->
  in_range R (coefficient_at Rad lhs (Z.min (_scale lhs) (_scale rhs))) ->
  in_range R (coefficient_at Rad rhs (Z.min (_scale lhs) (_scale rhs))) ->
  forall s l r : Z,
  s = Z.min (_scale lhs) (_scale rhs) ->
  l = coefficient_at Rad lhs s ->
  r = coefficient_at Rad rhs s ->
  rescaled R Rad lhs s = {| _value := l; _scale := s |} /\
  rescaled R Rad rhs s = {| _value := r; _scale := s |} /\
  (_scale lhs <= _scale rhs -> rescaled R Rad lhs s = lhs) /\
  (_scale rhs <= _scale lhs -> rescaled R Rad rhs s = rhs) /\
  (in_range R (l + r) ->
   operator_plus R Rad lhs rhs = {| _value := l + r; _scale := s |}) /\
  (in_range R (l - r) ->
   operator_minus R Rad lhs rhs = {| _value := l - r; _scale := s |}) /\
  (r <> 0 -> ~ (l = min_of R /\ r = -1) ->
   operator_mod R Rad lhs rhs = Some {| _value := Z.rem l r; _scale := s |}) /\
  operator_eq R Rad lhs rhs = (l =? r) /\
  operator_ne R Rad lhs rhs = negb (l =? r) /\
  operator_lt R Rad lhs rhs = (l <? r) /\
  operator_le R Rad lhs rhs = (l <=? r) /\
  operator_gt R Rad lhs rhs = (l >? r) /\
  operator_ge R Rad lhs rhs = (l >=? r).
Proof.
  intros Hl Hr Hlfit Hrfit s l r Hs Hl' Hr'.
  assert (Hsr : in_range int32_t s).
  { destruct Hl as [_ Hl], Hr as [_ Hr]. unfold in_range in *. lia. }
  assert (HL : rescaled R Rad lhs s = {| _value := l; _scale := s |}).
  { subst l. apply rescaled_finer; subst s; trivial. lia. }
  assert (HR : rescaled R Rad rhs s = {| _value := r; _scale := s |}).
  { subst r. apply rescaled_finer; subst s; trivial. lia. }
  rewrite <- Hs, <- Hl' in Hlfit. rewrite <- Hs, <- Hr' in Hrfit.
  unfold operator_plus, operator_minus, operator_mod, operator_eq,
    operator_ne, operator_lt, operator_le, operator_gt, operator_ge,
    fixed_point_of_scaled.
  rewrite <- !Hs, !HL, !HR. cbn [_value _scale value scale].
  repeat split.
  - intros Hle. rewrite <- HL. replace s with (_scale lhs) by lia.
    apply rescaled_same.
  - intros Hle. rewrite <- HR. replace s with (_scale rhs) by lia.
    apply rescaled_same.
  - intros Hsum. now rewrite add_rep, cast_id.
  - intros Hdiff. now rewrite sub_rep, cast_id.
  - intros Hnz Hnot. rewrite c_div_traps_false by assumption.
    now rewrite rem_rep.
Qed.

(** The second scenario of section 8.2: 1.5 at scale -1 plus 1.50 at scale
    -2 is 3.00 at scale -2. *)
Lemma operators_rescale_to_min_scale_witness :
  operator_plus Rep32 BASE_10
    {| _value := 15; _scale := -1 |} {| _value := 150; _scale := -2 |} =
  {| _value := 300; _scale := -2 |} /\
  operator_lt Rep32 BASE_10
    {| _value := 15; _scale := -1 |} {| _value := 150; _scale := -2 |} = false /\
  operator_mod Rep32 BASE_10
    {| _value := 15; _scale := -1 |} {| _value := 150; _scale := -2 |} =
  Some {| _value := 0; _scale := -2 |}.
Proof.
  assert (Hl : well_typed Rep32 {| _value := 15; _scale := -1 |})
    by (split; closed_range).
  assert (Hr : well_typed Rep32 {| _value := 150; _scale := -2 |})
    by (split; closed_range).
  destruct (operators_rescale_to_min_scale Rep32 BASE_10
              {| _value := 15; _scale := -1 |} {| _value := 150; _scale := -2 |}
              Hl Hr) with (s := -2) (l := 150) (r := 150)
    as (_ & _ & _ & _ & Hplus & _ & Hmod & _ & _ & Hlt & _).
  - closed_range.
  - closed_range.
  - reflexivity.
  - reflexivity.
  - reflexivity.
  - split; [ apply Hplus; closed_range | split; [ exact Hlt | ] ].
    apply Hmod; [ discriminate | intros [_ H]; discriminate H ].
Defined.

(** C9.  For a decimal whose scale is at least 1, pre-increment changes
    neither the coefficient nor the scale: the operand it adds,
    [fixed_point{1, scale}], has the coefficient [1 / 10^scale = 0].  So
    pre-increment changes the value only for a scale of at most 0. *)
Theorem pre_increment_positive_scale (R : rep) (x : fixed_point) :
  well_typed R x ->
  (1 <= _scale x -> operator_pre_increment R BASE_10 x = x) /\
  (1 <= _scale x ->
   fixed_point_ctor R BASE_10 int_t 1 (_scale x) =
   {| _value := 0; _scale := _scale x |}) /\
  (operator_pre_increment R BASE_10 x <> x -> _scale x <= 0).
Proof.
  intros [Hv Hs].
  assert (Hone : in_range R 1).
  { unfold in_range. pose proof (min_of_nonpos R).
    assert (1 <= max_of R) by (pose proof (max_of_pos R); lia). lia. }
  assert (Hctor : 1 <= _scale x ->
            fixed_point_ctor R BASE_10 int_t 1 (_scale x) =
            {| _value := 0; _scale := _scale x |}).
  { intros Hpos. unfold fixed_point_ctor. f_equal.
    rewrite (cast_id R 1 Hone). unfold detail.shift.
    destruct (Z.eqb_spec (_scale x) 0); [ lia | ].
    destruct (Z.gtb_spec (_scale x) 0); [ | lia ].
    unfold detail.right_shift. rewrite (cast_id int32_t _ Hs).
    destruct (Z_le_gt_dec (_scale x) (kernel_range (rep_kernel R))).
    - rewrite divide_power10_spec; trivial; [ | lia | intros _ _; right; lia ].
      apply Z.quot_small. split; [ lia | ].
      apply Z.pow_gt_1; lia.
    - apply divide_power10_out_of_range. lia. }
  assert (Hinc : 1 <= _scale x -> operator_pre_increment R BASE_10 x = x).
  { intros Hpos. unfold operator_pre_increment. rewrite (Hctor Hpos).
    unfold operator_plus. rewrite Z.min_id; cbn [_scale].
    rewrite rescaled_same.
    change (_scale x) with (_scale {| _value := 0; _scale := _scale x |}) at 2.
    rewrite rescaled_same. cbn [_value _scale].
    rewrite add_rep, Z.add_0_r, (cast_id R _ Hv); trivial.
    - now destruct x.
    - unfold in_range. pose proof (min_of_nonpos R).
      pose proof (max_of_pos R). lia. }
  repeat split; trivial.
  intros Hchg. destruct (Z_le_gt_dec (_scale x) 0); trivial.
  exfalso. apply Hchg, Hinc. lia.
Qed.

Lemma pre_increment_positive_scale_witness :
  operator_pre_increment Rep32 BASE_10 {| _value := 12345; _scale := 2 |} =
  {| _value := 12345; _scale := 2 |}.
Proof.
  apply (pre_increment_positive_scale Rep32 {| _value := 12345; _scale := 2 |}).
  - split; closed_range.
  - cbn. lia.
Defined.

(** X21.  For a scale from the kernel range down to 0 whose unit
    [10^(-scale)] the type holds, pre-increment adds exactly that unit to
    the coefficient, that is 1 to the value, when the sum fits. *)
Lemma pre_increment_nonpositive_scale (R : rep) (x : fixed_point) :
  well_typed R x ->
  - kernel_range (rep_kernel R) <= _scale x <= 0 ->
  in_range R (10 ^ (- _scale x)) ->
  in_range R (_value x + 10 ^ (- _scale x)) ->
  operator_pre_increment R BASE_10 x =
  {| _value := _value x + 10 ^ (- _scale x); _scale := _scale x |}.
Proof.
  intros [Hv Hs] Hr Hunit Hsum.
  assert (Hone : in_range R 1) by (apply small_in_rep; lia).
  assert (Hctor : fixed_point_ctor R BASE_10 int_t 1 (_scale x) =
                  {| _value := 10 ^ (- _scale x); _scale := _scale x |}).
  { unfold fixed_point_ctor. f_equal. rewrite (cast_id R 1 Hone).
    destruct (Z.eq_dec (_scale x) 0) as [H0 | Hnz].
    - rewrite H0. reflexivity.
    - replace (_scale x) with (- - _scale x) at 1 by lia.
      rewrite (shift_left_spec R BASE_10) by (trivial; cbn [shift_range]; lia).
      cbn [radix_value]. rewrite Z.mul_1_l. apply cast_id, Hunit. }
  unfold operator_pre_increment. rewrite Hctor.
  unfold operator_plus. rewrite Z.min_id; cbn [_scale].
  rewrite (rescaled_same R BASE_10 x).
  pose proof (rescaled_same R BASE_10
                {| _value := 10 ^ (- _scale x); _scale := _scale x |}) as Hsame.
  cbn [_scale] in Hsame. rewrite Hsame. cbn [_value _scale].
  rewrite add_rep, cast_id by assumption. reflexivity.
Qed.

Lemma pre_increment_nonpositive_scale_witness :
  operator_pre_increment Rep32 BASE_10 {| _value := 12345; _scale := -2 |} =
  {| _value := 12445; _scale := -2 |}.
Proof.
  apply (pre_increment_nonpositive_scale Rep32 {| _value := 12345; _scale := -2 |}).
  - split; closed_range.
  - cbn. lia.
  - closed_range.
  - closed_range.
Defined.

(** C10.  A decimal whose scale exceeds, in absolute value, the exponent
    range of the kernel of its own representation type converts to 0 in
    every integral type [U]: the shift of the conversion operator selects
    the kernel by [sizeof(Rep)], and the exponent reaches [default]. *)
Theorem operator_integral_scale_beyond_kernel
    (R : rep) (U : ctype) (x : fixed_point) :
  in_range int32_t (_scale x) ->
  kernel_range (rep_kernel R) < Z.abs (_scale x) ->
  operator_integral R BASE_10 U x = 0.
Proof.
  intros Hs Hbig. unfold operator_integral.
  rewrite neg32, neg32_cases by assumption.
  set (C := common_type U R). set (v := cast C (_value x)).
  assert (Hk : 0 < kernel_range (rep_kernel R) <= 38) by (destruct R; cbn; lia).
  assert (Hz : forall s1,
             in_range int32_t s1 ->
             kernel_range (rep_kernel R) < Z.abs s1 ->
             detail.shift R BASE_10 C v s1 = 0).
  { intros s1 Hs1 Hbig1. unfold detail.shift.
    destruct (Z.eqb_spec s1 0); [ lia | ].
    destruct (Z.gtb_spec s1 0).
    - unfold detail.right_shift. rewrite (cast_id int32_t s1 Hs1).
      apply divide_power10_out_of_range. lia.
    - unfold detail.left_shift. rewrite (cast_id int32_t s1 Hs1).
      rewrite neg32, neg32_cases by assumption.
      apply multiply_power10_out_of_range.
      destruct (Z.eqb_spec s1 (- 2 ^ 31)); lia. }
  rewrite Hz.
  - apply cast_zero.
  - destruct (Z.eqb_spec (_scale x) (- 2 ^ 31)).
    + closed_range.
    + revert Hs. unfold in_range. change (min_of int32_t) with (- 2 ^ 31).
      change (max_of int32_t) with (2 ^ 31 - 1). lia.
  - destruct (Z.eqb_spec (_scale x) (- 2 ^ 31)); lia.
Qed.

(** [decimal32] with coefficient 1 and scale 10 represents [10^10], which an
    [int64_t] holds; the conversion returns 0. *)
Lemma operator_integral_scale_beyond_kernel_witness :
  in_range int64_t (coefficient_at BASE_10 {| _value := 1; _scale := 10 |} 0) /\
  operator_integral Rep32 BASE_10 int64_t {| _value := 1; _scale := 10 |} = 0.
Proof.
  split; [ closed_range | ].
  apply (operator_integral_scale_beyond_kernel Rep32 int64_t
           {| _value := 1; _scale := 10 |}).
  - closed_range.
  - reflexivity.
Defined.

(** ** The overflow predicates *)

Section OverflowFacts.

(** The two quotient tests of [multiplication_overflow], on integers. *)
Lemma mul_overflow_pos (m M a b : Z) :
  m <= 0 <= M -> 0 < b ->
  (Z.quot M b < a \/ a < Z.quot m b) <-> ~ (m <= a * b <= M).
Proof.
  intros Hm Hb.
  pose proof (Z.quot_rem' M b). pose proof (Z.rem_bound_pos M b).
  pose proof (Z.quot_rem' m b). pose proof (Z.rem_bound_pos_neg m b).
  split; intros Hc; nia.
Qed.

Lemma mul_overflow_neg (m M a b : Z) :
  m <= 0 <= M -> b < 0 ->
  (Z.quot m b < a \/ a < Z.quot M b) <-> ~ (m <= a * b <= M).
Proof.
  intros Hm Hb.
  rewrite <- (Z.opp_involutive b), (Z.quot_opp_r M) by lia.
  rewrite <- (Z.opp_involutive m) at 1. rewrite Z.quot_opp_opp by lia.
  rewrite Z.opp_involutive.
  pose proof (Z.quot_rem' M (- b)). pose proof (Z.rem_bound_pos M (- b)).
  pose proof (Z.quot_rem' (- m) (- b)). pose proof (Z.rem_bound_pos (- m) (- b)).
  split; intros Hc; nia.
Qed.

Lemma quot_abs_le (a b : Z) : b <> 0 -> Z.abs (Z.quot a b) <= Z.abs a.
Proof.
  intros Hb. rewrite <- Z.quot_abs by assumption.
  apply Z.quot_le_upper_bound; nia.
Qed.

Variable R : rep.

Lemma common_rep_int : common_type R int_t = R.
Proof. destruct R; reflexivity. Qed.

Lemma min_rep_in_range : in_range R (min_of R).
Proof. destruct R; closed_range. Qed.

Lemma max_rep_in_range : in_range R (max_of R).
Proof. destruct R; closed_range. Qed.

(** A quotient leaves the type only for [min / -1]. *)
Lemma quot_rep_in_range (a b : Z) :
  in_range R a -> ~ (a = min_of R /\ b = -1) -> in_range R (Z.quot a b).
Proof.
  intros Ha Hnot. pose proof (rep_limits R) as Hlim. unfold in_range in *.
  destruct (Z.eq_dec b 0) as [-> | Hb].
  - rewrite Z.quot_0_r_ext by reflexivity.
    pose proof (min_of_nonpos R). pose proof (max_of_pos R). lia.
  - pose proof (quot_abs_le a b Hb).
    destruct (Z.eq_dec a (min_of R)) as [Heq | Hne]; [ | lia ].
    assert (Hb1 : b <> -1) by tauto.
    destruct (Z_le_gt_dec 1 b).
    + pose proof (Z.quot_rem' a b). pose proof (Z.rem_bound_pos_neg a b).
      pose proof (max_of_pos R). nia.
    + pose proof (Z.quot_opp_r a (- b)). rewrite Z.opp_involutive in *.
      pose proof (Z.quot_rem' a (- b)). pose proof (Z.rem_bound_pos_neg a (- b)).
      pose proof (max_of_pos R). nia.
Qed.

End OverflowFacts.

(** Evaluate the conversions of an overflow predicate called with
    [T = Rep]: every operand already has the representation type. *)
Ltac rep_conversions R :=
  unfold c_gt, c_lt, c_eq, cmpop, c_sub, c_add, c_div, binop, lit;
  cbn [fst snd];
  rewrite ?(common_rep_int R), ?(common_type_rep R), ?cast_idem.

(** C6.  On operands of the representation type, each predicate is true
    exactly when the exact result of its operation is outside
    [[min, max]]; for the quotient, with a divisor that is not zero, that is
    the single case [min / -1]. *)
Theorem overflow_predicates_exact (R : rep) (lhs rhs : Z) :
  in_range R lhs -> in_range R rhs ->
  (addition_overflow R R lhs rhs = true <-> ~ in_range R (lhs + rhs)) /\
  (subtraction_overflow R R lhs rhs = true <-> ~ in_range R (lhs - rhs)) /\
  (multiplication_overflow R R lhs rhs = true <-> ~ in_range R (lhs * rhs)) /\
  (rhs <> 0 ->
   (division_overflow R R lhs rhs = true <-> ~ in_range R (Z.quot lhs rhs)) /\
   (division_overflow R R lhs rhs = true <-> lhs = min_of R /\ rhs = -1)).
Proof.
  intros Hl Hr.
  pose proof (rep_limits R) as Hlim.
  pose proof (min_of_nonpos R) as Hmin. pose proof (max_of_pos R) as Hmax.
  pose proof (min_rep_in_range R) as Hm. pose proof (max_rep_in_range R) as HM.
  assert (H0 : cast R 0 = 0) by apply cast_zero.
  assert (H1 : cast R (-1) = -1) by (apply cast_id, small_in_rep; lia).
  unfold addition_overflow, subtraction_overflow, multiplication_overflow,
    division_overflow.
  rep_conversions R.
  rewrite !(cast_id R lhs Hl), !(cast_id R rhs Hr), !(cast_id R _ Hm),
    !(cast_id R _ HM), ?H0, ?H1.
  unfold in_range in Hl, Hr.
  split; [ | split; [ | split; [ | intros Hnz; split ] ] ].
  - destruct (Z.gtb_spec rhs 0).
    + rewrite !cast_id by (unfold in_range; lia).
      rewrite Z.gtb_ltb, Z.ltb_lt. unfold in_range. lia.
    + rewrite !cast_id by (unfold in_range; lia).
      rewrite Z.ltb_lt. unfold in_range. lia.
  - destruct (Z.gtb_spec rhs 0).
    + rewrite !cast_id by (unfold in_range; lia).
      rewrite Z.ltb_lt. unfold in_range. lia.
    + rewrite !cast_id by (unfold in_range; lia).
      rewrite Z.gtb_ltb, Z.ltb_lt. unfold in_range. lia.
  - destruct (Z.gtb_spec rhs 0).
    + rewrite !(cast_id R (Z.quot _ rhs))
        by (try rewrite cast_id; apply quot_rep_in_range; trivial; lia).
      rewrite orb_true_iff, Z.gtb_ltb, !Z.ltb_lt. unfold in_range.
      apply mul_overflow_pos; lia.
    + destruct (Z.ltb_spec rhs (-1)).
      * rewrite !(cast_id R (Z.quot _ rhs))
          by (try rewrite cast_id; apply quot_rep_in_range; trivial; lia).
        rewrite orb_true_iff, Z.gtb_ltb, !Z.ltb_lt. unfold in_range.
        apply mul_overflow_neg; lia.
      * rewrite andb_true_iff, !Z.eqb_eq. unfold in_range. nia.
  - rewrite andb_true_iff, !Z.eqb_eq. split.
    + intros [-> ->].
      rewrite <- (Z.opp_involutive (-1)), Z.quot_opp_r, Z.quot_1_r by lia.
      unfold in_range. lia.
    + intros Hout.
      destruct (Z.eq_dec lhs (min_of R)), (Z.eq_dec rhs (-1)); try tauto;
        exfalso; apply Hout, quot_rep_in_range; trivial; tauto.
  - rewrite andb_true_iff, !Z.eqb_eq. tauto.
Qed.

Lemma overflow_predicates_exact_witness :
  addition_overflow Rep32 Rep32 2147483647 1 = true /\
  multiplication_overflow Rep32 Rep32 (-2147483648) (-1) = true /\
  division_overflow Rep32 Rep32 (-2147483648) (-1) = true.
Proof.
  destruct (overflow_predicates_exact Rep32 2147483647 1)
    as (Hadd & _); try closed_range.
  destruct (overflow_predicates_exact Rep32 (-2147483648) (-1))
    as (_ & _ & Hmul & Hdiv); try closed_range.
  assert (Hnz : -1 <> 0) by discriminate.
  destruct (Hdiv Hnz) as [_ Hdiv'].
  split; [ | split ].
  - apply Hadd. vm_compute. intros [_ H]. apply H. reflexivity.
  - apply Hmul. vm_compute. intros [_ H]. apply H. reflexivity.
  - apply Hdiv'. split; reflexivity.
Defined.

(** ** Rendering *)

Section StringFacts.

Lemma size_append (a b : string) : size (a ++ b) = size a + size b.
Proof.
  unfold size. induction a as [ | c a IH ]; cbn [append String.length].
  - reflexivity.
  - rewrite !Nat2Z.inj_succ. lia.
Qed.

Lemma length_iter_String (n : nat) (c : ascii) :
  String.length (Nat.iter n (String c) EmptyString) = n.
Proof. induction n as [ | n IH ]; simpl; congruence. Qed.

Lemma size_string_fill (k : Z) (c : ascii) : 0 <= k -> size (string_fill k c) = k.
Proof.
  intros Hk. unfold size, string_fill.
  rewrite length_iter_String. apply Z2Nat.id, Hk.
Qed.

Lemma string_fill_max (k : Z) (c : ascii) :
  string_fill (Z.max 0 k) c = string_fill k c.
Proof.
  unfold string_fill. f_equal. lia.
Qed.

(** A number below [10^(k+1)] has at most [k+1] digits. *)
Lemma digits_of_length (fuel : nat) :
  forall (n : Z) (acc : string) (k : nat),
    0 <= n < 10 ^ Z.of_nat (S k) ->
    (String.length (detail.digits_of fuel n acc) <= S k + String.length acc)%nat.
Proof.
  induction fuel as [ | fuel IH ]; intros n acc k Hn; cbn [detail.digits_of].
  - lia.
  - destruct (Z.eqb_spec (n / 10) 0) as [Hq | Hq].
    + cbn [String.length]. lia.
    + destruct k as [ | k ].
      * exfalso. apply Hq. apply Z.div_small. cbn in Hn. lia.
      * eapply Nat.le_trans.
        -- apply (IH (n / 10) _ k). split.
           ++ apply Z.div_pos; lia.
           ++ apply Z.div_lt_upper_bound; [ lia | ].
              rewrite <- Z.pow_succ_r by lia.
              rewrite <- Nat2Z.inj_succ. apply Hn.
        -- cbn [String.length]. lia.
Qed.

Lemma to_string_size (n k : Z) :
  0 < k -> 0 <= n < 10 ^ k -> 0 <= size (detail.to_string n) <= k.
Proof.
  intros Hk Hn. unfold size. split; [ lia | ].
  unfold detail.to_string.
  destruct (Z.ltb_spec n 0); [ lia | ].
  rewrite Z.abs_eq by lia.
  pose proof (digits_of_length (S (Z.to_nat (Z.log2 n))) n EmptyString
                (Z.to_nat (k - 1))) as Hlen.
  rewrite Nat2Z.inj_succ, Z2Nat.id in Hlen by lia.
  replace (Z.succ (k - 1)) with k in Hlen by lia.
  specialize (Hlen Hn). cbn [String.length] in Hlen. lia.
Qed.

Lemma digit_value_char (d : Z) :
  0 <= d < 10 -> digit_value (detail.digit_char d) = d.
Proof. intros Hd. enum_exp d 0 10%nat; reflexivity. Qed.

(** With fuel for every binary digit, [digits_of] writes the whole number. *)
Lemma digits_of_value (fuel : nat) :
  forall (n : Z) (acc : string),
    0 <= n < 2 ^ Z.of_nat fuel ->
    decimal_value (detail.digits_of fuel n acc) =
    n * 10 ^ Z.of_nat (String.length acc) + decimal_value acc.
Proof.
  induction fuel as [ | fuel IH ]; intros n acc Hn.
  - cbn in Hn. assert (n = 0) by lia. subst n. reflexivity.
  - cbn [detail.digits_of].
    pose proof (Z.mod_pos_bound n 10 ltac:(lia)) as Hmod.
    pose proof (Z.div_mod n 10 ltac:(lia)) as Hdm.
    destruct (Z.eqb_spec (n / 10) 0) as [Hq | Hq].
    + cbn [decimal_value]. rewrite digit_value_char by assumption.
      f_equal. f_equal. lia.
    + rewrite IH.
      * cbn [decimal_value String.length].
        rewrite digit_value_char by assumption.
        rewrite Nat2Z.inj_succ, Z.pow_succ_r by lia.
        set (p := 10 ^ Z.of_nat (String.length acc)). nia.
      * rewrite Nat2Z.inj_succ, Z.pow_succ_r in Hn by lia.
        split; [ apply Z.div_pos; lia | ].
        apply Z.div_lt_upper_bound; lia.
Qed.

(** The rendering of a number that is not negative reads back as the
    number: the model of [detail::to_string] is the decimal rendering. *)
Lemma to_string_value (n : Z) :
  0 <= n -> decimal_value (detail.to_string n) = n.
Proof.
  intros Hn. unfold detail.to_string.
  destruct (Z.ltb_spec n 0); [ lia | ].
  rewrite Z.abs_eq by lia.
  rewrite digits_of_value.
  - cbn. lia.
  - rewrite Nat2Z.inj_succ, Z2Nat.id by apply Z.log2_nonneg.
    destruct (Z.eq_dec n 0) as [-> | Hnz]; [ cbn; lia | ].
    pose proof (Z.log2_spec n). lia.
Qed.

Lemma to_string_negative (n : Z) :
  n < 0 -> detail.to_string n = String "-" (detail.to_string (- n)).
Proof.
  intros Hn. unfold detail.to_string.
  destruct (Z.ltb_spec n 0); [ | lia ].
  destruct (Z.ltb_spec (- n) 0); [ lia | ].
  now rewrite Z.abs_opp.
Qed.

(** The largest power of ten a representation type holds has at most 38
    digits after the leading one. *)
Lemma pow10_fits_exponent (R : rep) (e : Z) :
  10 ^ e <= max_of R -> e <= 38.
Proof.
  intros He. destruct (Z_le_gt_dec e 38); trivial. exfalso.
  assert (10 ^ 39 <= 10 ^ e) by (apply Z.pow_le_mono_r; lia).
  assert (max_of R < 10 ^ 39) by (destruct R; reflexivity). lia.
Qed.

End StringFacts.

(** C3, as the code has it.  For a scale that is not negative the rendering
    is the coefficient followed by [scale] zeros.  For a negative scale whose
    power of ten [10^(-scale)] the representation type holds, and a
    coefficient other than the minimum of the type, the rendering is the
    sign, the integer part, the point and the fraction padded on the left
    with zeros to exactly [-scale] characters. *)
Theorem operator_string_spec (R : rep) (x : fixed_point) :
  well_typed R x ->
  (_scale x < 0 ->
   10 ^ (- _scale x) <= max_of R /\ _value x <> min_of R) ->
  operator_string R x = Some (spec_to_string (_value x) (_scale x)) /\
  (_scale x < 0 ->
   size (pad_left (- _scale x)
           (detail.to_string (Z.abs (_value x) mod 10 ^ (- _scale x)))) =
   - _scale x).
Proof.
  intros [Hv Hs] Hneg.
  unfold operator_string, spec_to_string.
  destruct (Z.ltb_spec (_scale x) 0) as [Hlt | Hge]; [ | split; [ reflexivity | lia ] ].
  destruct (Hneg Hlt) as [Hpow Hmin]. clear Hneg.
  set (e := - _scale x) in *.
  assert (He : 0 < e <= 38) by (split; [ lia | apply (pow10_fits_exponent R), Hpow ]).
  assert (Hn : 0 < 10 ^ e) by (apply Z.pow_pos_nonneg; lia).
  pose proof (rep_limits R) as Hlim. pose proof (min_of_nonpos R) as Hm0.
  assert (Hav : in_range R (Z.abs (_value x))) by (unfold in_range in *; lia).
  assert (Hne : in_range R (10 ^ e)) by (unfold in_range; lia).
  assert (Hfrac : 0 <= Z.abs (_value x) mod 10 ^ e < 10 ^ e)
    by (apply Z.mod_pos_bound; lia).
  pose proof (to_string_size _ e (proj1 He) Hfrac) as Hsz.
  assert (Hpad : size (pad_left e
                   (detail.to_string (Z.abs (_value x) mod 10 ^ e))) = e).
  { unfold pad_left. rewrite size_append, size_string_fill; lia. }
  split; [ | intros _; exact Hpad ].
  rewrite neg32 by assumption.
  rewrite (cast_id int32_t (- _scale x)) by (apply small_in_int32; fold e; lia).
  fold e. unfold detail.abs, detail.exp10.
  rewrite (cast_id R _ Hav), (cast_id R _ Hne).
  destruct (Z.eqb_spec (10 ^ e) 0); [ lia | ].
  unfold ret. rewrite rem_rep by assumption.
  rewrite Z.rem_mod_nonneg by lia.
  rewrite (cast_id R (Z.abs (_value x) mod 10 ^ e))
    by (unfold in_range in *; lia).
  unfold c_div, binop; cbn [fst snd]. rewrite common_type_rep.
  rewrite (cast_id R _ Hav), (cast_id R _ Hne).
  rewrite Z.quot_div_nonneg by lia.
  rewrite (cast_id R (Z.abs (_value x) / 10 ^ e)).
  2:{ apply div_pow_in_range; assumption. }
  unfold c_neg; cbn [fst snd].
  rewrite (promote_wide int32_t) by (vm_compute; discriminate).
  rewrite (cast_id int32_t (_scale x) Hs).
  rewrite (cast_id int32_t (- _scale x)) by (apply small_in_int32; fold e; lia).
  fold e.
  rewrite (cast_id int32_t (size _)) by (apply small_in_int32; lia).
  rewrite sub32 by (apply small_in_int32; lia).
  rewrite (cast_id int32_t (e - _)) by (apply small_in_int32; lia).
  rewrite string_fill_max. reflexivity.
Qed.

(** The three renderings of section 4.3.5: 1.001, -0.05 and 700. *)
Lemma operator_string_spec_witness :
  operator_string Rep32 {| _value := 1001; _scale := -3 |} = Some "1.001"%string /\
  operator_string Rep32 {| _value := -5; _scale := -2 |} = Some "-0.05"%string /\
  operator_string Rep32 {| _value := 7; _scale := 2 |} = Some "700"%string.
Proof.
  split; [ | split ].
  - apply (operator_string_spec Rep32 {| _value := 1001; _scale := -3 |}).
    + split; closed_range.
    + intros _. split; vm_compute; discriminate.
  - apply (operator_string_spec Rep32 {| _value := -5; _scale := -2 |}).
    + split; closed_range.
    + intros _. split; vm_compute; discriminate.
  - apply (operator_string_spec Rep32 {| _value := 7; _scale := 2 |}).
    + split; closed_range.
    + intros H; vm_compute in H; discriminate.
Defined.

(** C3 as stated fails where [10^(-scale)] does not fit the representation
    type: for [decimal32] with coefficient 2000000000 and scale -10 the
    divisor is [10^10] reduced to 32 bits, 1410065408, and the rendering is
    "1.0589934592" where the specification has "0.2000000000". *)
Lemma operator_string_wrapped_divisor :
  spec_to_string 2000000000 (-10) = "0.2000000000"%string /\
  operator_string Rep32 {| _value := 2000000000; _scale := -10 |} =
    Some "1.0589934592"%string /\
  operator_string Rep32 {| _value := 2000000000; _scale := -10 |} <>
    Some (spec_to_string 2000000000 (-10)).
Proof. repeat split. vm_compute. discriminate. Qed.

(** With the negation of [detail::abs] wrapping, the minimum of the type
    keeps its sign and is rendered with two minus signs. *)
Lemma operator_string_minimum_coefficient :
  operator_string Rep32 {| _value := -2147483648; _scale := -1 |} =
  Some "--214748364.-8"%string.
Proof. reflexivity. Qed.

(** C4, as the code has it.  The scaled constructor shifts 1001 left by
    three digits, so the rendering is "1001.000"; the raw construction from
    [scaled_integer{1001, -3}] renders as "1.001". *)
Theorem scaled_construction_then_string :
  operator_string Rep32 (fixed_point_ctor Rep32 BASE_10 int_t 1001 (-3)) =
    Some "1001.000"%string /\
  operator_string Rep32
    (fixed_point_of_scaled {| value := 1001; scale := -3 |}) =
    Some "1.001"%string.
Proof. split; reflexivity. Qed.

(** C4 as stated fails: the rendering of [decimal32(1001, scale_type{-3})]
    is not "1.001". *)
Lemma scaled_construction_not_1_001 :
  operator_string Rep32 (fixed_point_ctor Rep32 BASE_10 int_t 1001 (-3)) <>
  Some "1.001"%string.
Proof. vm_compute. discriminate. Qed.

(** * Further properties of the header *)

(** ** Integer exponentiation *)

Section PowerFacts.

Lemma cast_mul_l (T : ctype) (a b : Z) : cast T (cast T a * b) = cast T (a * b).
Proof.
  apply cast_congr. pose proof (half_modulus_pos T). pose proof (modulus_split T).
  rewrite <- Z.mul_mod_idemp_l, cast_mod, Z.mul_mod_idemp_l by lia. reflexivity.
Qed.

Lemma cast_mul_r (T : ctype) (a b : Z) : cast T (a * cast T b) = cast T (a * b).
Proof. rewrite (Z.mul_comm a), cast_mul_l. f_equal. apply Z.mul_comm. Qed.

Lemma cast_pow (T : ctype) (a n : Z) : cast T (cast T a ^ n) = cast T (a ^ n).
Proof.
  apply cast_congr. rewrite <- Z.mod_pow_l, cast_mod, Z.mod_pow_l. reflexivity.
Qed.

Variable R : rep.

Lemma mul_rep (a b : Z) :
  in_range R a -> in_range R b ->
  snd (c_mul (rep_type R, a) (rep_type R, b)) = cast R (a * b).
Proof.
  intros Ha Hb. unfold c_mul, binop; cbn [fst snd].
  now rewrite common_type_rep, (cast_id R a Ha), (cast_id R b Hb).
Qed.

(** The loop invariant: [extra * square ^ exponent] is unchanged modulo
    [2^bits] by one round, and fuel for every bit of the exponent ends the
    loop. *)
Lemma ipow_loop_spec (fuel : nat) :
  forall exponent extra square : Z,
    1 <= exponent < 2 ^ Z.of_nat fuel ->
    in_range R extra -> in_range R square ->
    detail.ipow_loop R fuel exponent extra square =
    Some (cast R (extra * square ^ exponent)).
Proof.
  induction fuel as [ | fuel IH ]; intros e extra square He Hx Hs.
  - cbn in He. lia.
  - cbn [detail.ipow_loop].
    rewrite Nat2Z.inj_succ, Z.pow_succ_r in He by lia.
    destruct (Z.gtb_spec e 1) as [Hgt | Hle].
    + assert (Hland : Z.land e 1 = e mod 2)
        by (change (Z.land e 1) with (Z.land e (Z.ones 1));
            apply (Z.land_ones e 1); lia).
      rewrite Hland, Z.shiftr_div_pow2 by lia. change (2 ^ 1) with 2.
      pose proof (Z.div_mod e 2 ltac:(lia)) as Hdm.
      pose proof (Z.mod_pos_bound e 2 ltac:(lia)) as Hmod.
      rewrite (mul_rep square square) by assumption.
      rewrite IH.
      * f_equal.
        rewrite <- (cast_mul_r R _ (cast R (square * square) ^ (e / 2))).
        rewrite cast_pow, cast_mul_r.
        rewrite <- Z.pow_2_r, <- Z.pow_mul_r by lia.
        assert (Hsplit : square ^ e = square ^ (e mod 2) * square ^ (2 * (e / 2))).
        { rewrite <- Z.pow_add_r by lia. f_equal. lia. }
        rewrite Hsplit, Z.mul_assoc.
        destruct (Z.eqb_spec (e mod 2) 0) as [H0 | H1]; cbn [negb].
        -- rewrite H0, Z.pow_0_r, Z.mul_1_r. reflexivity.
        -- assert (Hone : e mod 2 = 1) by lia.
           rewrite Hone, Z.pow_1_r, mul_rep by assumption.
           rewrite cast_mul_l. reflexivity.
      * split; [ apply Z.div_le_lower_bound; lia
               | apply Z.div_lt_upper_bound; lia ].
      * destruct (negb (e mod 2 =? 0)); [ | assumption ].
        rewrite mul_rep by assumption. apply cast_in_range.
      * apply cast_in_range.
    + assert (e = 1) by lia. subst e.
      unfold ret. rewrite mul_rep by assumption.
      rewrite cast_idem, Z.pow_1_r, Z.mul_comm. reflexivity.
Qed.

End PowerFacts.

(** X1.  For every exponent an [int32_t] holds that is not negative,
    [ipow<Rep, Base>] returns the power of the base reduced to [Rep]; in
    base 2 the exponent is the count of a shift and stays below the width. *)
Theorem ipow_is_power (R : rep) (Base : Radix) (exponent : Z) :
  0 <= exponent <= max_of int32_t ->
  (Base = BASE_2 -> exponent < bits R) ->
  detail.ipow R Base exponent = Some (cast R (radix_value Base ^ exponent)).
Proof.
  intros He Hb. unfold detail.ipow.
  destruct (Z.ltb_spec exponent 0); [ lia | ].
  assert (Hone : in_range R 1) by (apply small_in_rep; lia).
  destruct Base; cbn [radix_value].
  - unfold ret, c_shl; cbn [fst snd].
    rewrite (promote_wide R) by apply rep_bits_ge.
    rewrite !cast_idem, (cast_id R 1 Hone), Z.shiftl_mul_pow2 by lia.
    now rewrite Z.mul_1_l.
  - destruct (Z.eqb_spec exponent 0) as [-> | Hnz]; [ reflexivity | ].
    rewrite (ipow_loop_spec R).
    + now rewrite (cast_id R 1 Hone), Z.mul_1_l, cast_pow.
    + change (max_of int32_t) with (2 ^ 31 - 1) in He.
      change (Z.of_nat 32) with 32. lia.
    + apply cast_in_range.
    + apply cast_in_range.
Qed.

Lemma ipow_is_power_witness :
  detail.ipow Rep64 BASE_10 18 = Some 1000000000000000000 /\
  detail.ipow Rep32 BASE_10 10 = Some 1410065408 /\
  detail.ipow Rep32 BASE_2 31 = Some (-2147483648).
Proof.
  split; [ | split ].
  - apply (ipow_is_power Rep64 BASE_10 18); [ closed_range | discriminate ].
  - apply (ipow_is_power Rep32 BASE_10 10); [ closed_range | discriminate ].
  - apply (ipow_is_power Rep32 BASE_2 31); [ closed_range | reflexivity ].
Defined.

(** X2.  [large_power_of_10<Exp10>()] is [10^Exp10] as an [__int128_t] for
    every exponent from 18, the recursion's base case, to 38, the last power
    of ten the type holds; beyond, it is the power reduced to 128 bits. *)
Theorem large_power_of_10_is_power (Exp10 : Z) :
  18 <= Exp10 ->
  detail.large_power_of_10 Exp10 = (int128_t, cast int128_t (10 ^ Exp10)) /\
  (Exp10 <= 38 -> snd (detail.large_power_of_10 Exp10) = 10 ^ Exp10).
Proof.
  intros He.
  assert (Hgen : forall k : nat,
             detail.large_power_of_10_from18 k =
             (int128_t, cast int128_t (10 ^ (18 + Z.of_nat k)))).
  { induction k as [ | k IH ]; [ reflexivity | ].
    cbn [detail.large_power_of_10_from18]. rewrite IH.
    unfold c_mul, binop; cbn [fst snd].
    change (common_type int128_t int128_t) with int128_t.
    rewrite !cast_idem, cast_mul_l, cast_mul_r.
    rewrite Nat2Z.inj_succ.
    replace (18 + Z.succ (Z.of_nat k)) with (Z.succ (18 + Z.of_nat k)) by lia.
    rewrite Z.pow_succ_r by lia. do 2 f_equal. apply Z.mul_comm. }
  unfold detail.large_power_of_10. rewrite Hgen.
  replace (18 + Z.of_nat (Z.to_nat (Exp10 - 18))) with Exp10 by lia.
  split; [ reflexivity | ].
  intros Hle. cbn [snd]. apply cast_id.
  unfold in_range. change (min_of int128_t) with (- 2 ^ 127).
  change (max_of int128_t) with (2 ^ 127 - 1).
  assert (0 < 10 ^ Exp10) by (apply Z.pow_pos_nonneg; lia).
  assert (10 ^ Exp10 <= 10 ^ 38) by (apply Z.pow_le_mono_r; lia).
  assert (10 ^ 38 < 2 ^ 127) by reflexivity. lia.
Qed.

Lemma large_power_of_10_is_power_witness :
  detail.large_power_of_10 38 =
  (int128_t, 100000000000000000000000000000000000000).
Proof.
  destruct (large_power_of_10_is_power 38) as [Heq _]; [ discriminate | ].
  exact Heq.
Defined.

(** ** The kernels on every operand type *)

(** X3.  Within its documented range every multiplication kernel returns
    the product [value * 10^exp10] reduced to the type [T] of the operand,
    whatever that type is: the literal [10000000000000000000ULL] and the
    128-bit powers change the type the product is computed in, never its
    residue. *)
Theorem multiply_kernels_exact
    (k : kernel_width) (T : ctype) (value exp10 : Z) :
  in_range T value -> 0 <= exp10 <= kernel_range k ->
  multiply_power10_Nbit k T value exp10 = cast T (value * 10 ^ exp10).
Proof.
  intros Hv He. destruct k; cbn [multiply_power10_Nbit kernel_range] in *.
  - apply multiply_power10_32bit_spec; assumption.
  - apply multiply_power10_64bit_spec; assumption.
  - apply multiply_power10_128bit_spec; assumption.
Qed.

Lemma multiply_kernels_exact_witness :
  multiply_power10_Nbit K64 int64_t (-3) 19 = 6893488147419103232 /\
  multiply_power10_Nbit K128 uint8_t 7 2 = 188.
Proof.
  split.
  - apply (multiply_kernels_exact K64 int64_t (-3) 19); [ closed_range | cbn; lia ].
  - apply (multiply_kernels_exact K128 uint8_t 7 2); [ closed_range | cbn; lia ].
Defined.

(** X4.  Within its documented range every division kernel returns the
    quotient truncated toward zero, for every operand type; the only
    exception is the 64-bit kernel at exponent 19 for a negative operand of
    a signed type narrower than 128 bits. *)
Theorem divide_kernels_truncate
    (k : kernel_width) (T : ctype) (value exp10 : Z) :
  in_range T value -> 0 <= exp10 <= kernel_range k ->
  (k = K64 -> exp10 = 19 ->
   is_signed T = false \/ width_of T = W128 \/ 0 <= value) ->
  divide_power10_Nbit k T value exp10 = Z.quot value (10 ^ exp10).
Proof.
  intros Hv He H19. destruct k; cbn [divide_power10_Nbit kernel_range] in *.
  - apply divide_power10_32bit_spec; assumption.
  - apply divide_power10_64bit_spec; trivial.
    intros E. destruct (H19 eq_refl E) as [Hu | [Hw | Hnn]].
    + right. eapply unsigned_nonneg; eassumption.
    + destruct (is_signed T) eqn:Hs.
      * left. destruct T as [sg w]; cbn in Hs, Hw; subst; reflexivity.
      * right. eapply unsigned_nonneg; eassumption.
    + right. assumption.
  - apply divide_power10_128bit_spec; assumption.
Qed.

Lemma divide_kernels_truncate_witness :
  divide_power10_Nbit K64 int64_t (-1999) 3 = -1 /\
  divide_power10_Nbit K64 int128_t (- 10 ^ 19) 19 = -1.
Proof.
  split.
  - apply (divide_kernels_truncate K64 int64_t (-1999) 3);
      [ closed_range | cbn; lia | intros _ H; discriminate H ].
  - apply (divide_kernels_truncate K64 int128_t (- 10 ^ 19) 19);
      [ closed_range | cbn; lia | intros _ _; right; left; reflexivity ].
Defined.

(** ** Rescaling to a coarser scale *)

Section CoarserFacts.

Variable R : rep.
Variable Rad : Radix.

Lemma rescaled_up (x : fixed_point) (s : Z) :
  well_typed R x -> in_range int32_t s ->
  0 < s - _scale x <= shift_range R Rad ->
  (R = Rep64 -> Rad = BASE_10 -> s - _scale x = 19 -> 0 <= _value x) ->
  rescaled R Rad x s =
  {| _value := kept Rad (_value x) (s - _scale x); _scale := s |}.
Proof.
  intros [Hv Hsx] Hs Hd H19. pose proof (shift_range_small R Rad) as Hsr.
  unfold rescaled. destruct (Z.eqb_spec s (_scale x)); [ lia | ].
  rewrite sub32 by assumption.
  rewrite (cast_id int32_t) by (apply small_in_int32; lia).
  rewrite shift_right_spec by assumption. reflexivity.
Qed.

Lemma kept_in_range (v d : Z) : in_range R v -> 0 <= d -> in_range R (kept Rad v d).
Proof.
  intros Hv Hd. unfold kept. destruct Rad.
  - apply div_pow_in_range; [ assumption | apply Z.pow_pos_nonneg; lia ].
  - apply quot_in_range; [ assumption | apply Z.pow_pos_nonneg; lia ].
Qed.

Lemma kept_dropped (v d : Z) :
  0 <= d -> kept Rad v d * radix_value Rad ^ d = v - dropped Rad v d.
Proof.
  intros Hd. unfold kept, dropped. destruct Rad; cbn [radix_value].
  - pose proof (Z.div_mod v (2 ^ d)).
    assert (0 < 2 ^ d) by (apply Z.pow_pos_nonneg; lia). lia.
  - pose proof (Z.quot_rem' v (10 ^ d)). lia.
Qed.

(** The coefficient without its dropped digits lies between zero and the
    coefficient in base 10, and not below the minimum of the type in base 2,
    where the minimum is a multiple of every power of two of the range. *)
Lemma kept_scaled_in_range (v d : Z) :
  in_range R v -> 0 <= d <= shift_range R Rad ->
  in_range R (kept Rad v d * radix_value Rad ^ d).
Proof.
  intros Hv Hd. rewrite kept_dropped by lia.
  unfold dropped, in_range in *.
  pose proof (min_of_nonpos R) as Hm0. pose proof (max_of_pos R) as HM0.
  destruct Rad; cbn [shift_range] in Hd.
  - assert (Hp : 0 < 2 ^ d) by (apply Z.pow_pos_nonneg; lia).
    pose proof (Z.mod_pos_bound v (2 ^ d) Hp) as Hmod.
    split; [ | lia ].
    assert (Hmin : min_of R = - (2 ^ d * 2 ^ (bits R - 1 - d))).
    { rewrite <- Z.pow_add_r by lia.
      replace (d + (bits R - 1 - d)) with (bits R - 1) by lia.
      destruct R; reflexivity. }
    assert (Hk : 0 < 2 ^ (bits R - 1 - d)) by (apply Z.pow_pos_nonneg; lia).
    pose proof (Z.div_mod v (2 ^ d) ltac:(lia)) as Hdm.
    assert (- 2 ^ (bits R - 1 - d) <= v / 2 ^ d)
      by (apply Z.div_le_lower_bound; lia).
    nia.
  - assert (Hp : 0 < 10 ^ d) by (apply Z.pow_pos_nonneg; lia).
    destruct (Z_le_gt_dec 0 v).
    + pose proof (Z.rem_bound_pos v (10 ^ d)). pose proof (Z.rem_le v (10 ^ d)). lia.
    + pose proof (Z.rem_opp_l v (10 ^ d) ltac:(lia)) as Hopp.
      pose proof (Z.rem_bound_pos (- v) (10 ^ d)).
      pose proof (Z.rem_le (- v) (10 ^ d)). lia.
Qed.

End CoarserFacts.

(** X5.  Rescaling to a coarser scale within the range of the shift drops
    the low digits of the coefficient: by division truncated toward zero in
    base 10, by the arithmetic right shift, which rounds toward minus
    infinity, in base 2.  The one excluded case is the 64-bit decimal with a
    negative coefficient and a scale difference of 19. *)
Theorem rescaled_coarser_drops_digits
    (R : rep) (Rad : Radix) (x : fixed_point) (s : Z) :
  well_typed R x -> in_range int32_t s ->
  0 < s - _scale x <= shift_range R Rad ->
  (R = Rep64 -> Rad = BASE_10 -> s - _scale x = 19 -> 0 <= _value x) ->
  rescaled R Rad x s =
  {| _value :=
       match Rad with
       | BASE_10 => Z.quot (_value x) (10 ^ (s - _scale x))
       | BASE_2 => _value x / 2 ^ (s - _scale x)
       end;
     _scale := s |}.
Proof.
  intros Hx Hs Hd H19. rewrite (rescaled_up R Rad x s) by assumption.
  unfold kept. now destruct Rad.
Qed.

(** Minus one and a half: the decimal keeps -1, the binary keeps -2. *)
Lemma rescaled_coarser_drops_digits_witness :
  rescaled Rep32 BASE_10 {| _value := -15; _scale := -1 |} 0 =
    {| _value := -1; _scale := 0 |} /\
  rescaled Rep32 BASE_2 {| _value := -3; _scale := -1 |} 0 =
    {| _value := -2; _scale := 0 |}.
Proof.
  split.
  - apply (rescaled_coarser_drops_digits Rep32 BASE_10
             {| _value := -15; _scale := -1 |} 0).
    + split; closed_range.
    + closed_range.
    + cbn. lia.
    + intros H; discriminate H.
  - apply (rescaled_coarser_drops_digits Rep32 BASE_2
             {| _value := -3; _scale := -1 |} 0).
    + split; closed_range.
    + closed_range.
    + cbn. lia.
    + intros H; discriminate H.
Defined.

(** X6.  Rescaling to a coarser scale within the range of the shift and
    back returns the original scale and the coefficient without the digits
    that were dropped: the original minus its remainder (base 10) or minus
    its residue (base 2).  The way back never overflows.  As for the way
    up alone, the 64-bit decimal with a negative coefficient and a scale
    difference of 19 is excluded. *)
Theorem rescaled_coarser_and_back
    (R : rep) (Rad : Radix) (x : fixed_point) (s : Z) :
  well_typed R x -> in_range int32_t s ->
  0 < s - _scale x <= shift_range R Rad ->
  (R = Rep64 -> Rad = BASE_10 -> s - _scale x = 19 -> 0 <= _value x) ->
  rescaled R Rad (rescaled R Rad x s) (_scale x) =
  {| _value :=
       _value x -
       match Rad with
       | BASE_10 => Z.rem (_value x) (10 ^ (s - _scale x))
       | BASE_2 => _value x mod 2 ^ (s - _scale x)
       end;
     _scale := _scale x |}.
Proof.
  intros Hx Hs Hd H19. rewrite (rescaled_up R Rad x s) by assumption.
  destruct Hx as [Hv Hsx].
  rewrite rescaled_down; cbn [_value _scale]; trivial; try lia.
  - unfold coefficient_at; cbn [_value _scale].
    rewrite kept_dropped by lia. unfold dropped. now destruct Rad.
  - split; cbn [_value _scale]; [ apply kept_in_range; trivial; lia | assumption ].
  - unfold coefficient_at; cbn [_value _scale].
    apply kept_scaled_in_range; trivial. lia.
Qed.

Lemma rescaled_coarser_and_back_witness :
  rescaled Rep32 BASE_10
    (rescaled Rep32 BASE_10 {| _value := -12345; _scale := -3 |} (-1)) (-3) =
  {| _value := -12300; _scale := -3 |}.
Proof.
  apply (rescaled_coarser_and_back Rep32 BASE_10
           {| _value := -12345; _scale := -3 |} (-1)).
  - split; closed_range.
  - closed_range.
  - cbn. lia.
  - intros H; discriminate H.
Defined.

(** ** Values stay in the representation type *)

Section ClosureFacts.

(** Every arm of every kernel returns its operand or converts to its type. *)
Ltac arm_in_range p :=
  lazy beta iota zeta
    delta [detail.divide_power10_32bit detail.divide_power10_64bit
           detail.divide_power10_128bit detail.multiply_power10_32bit
           detail.multiply_power10_64bit detail.multiply_power10_128bit];
  first [ assumption
        | apply cast_in_range
        | destruct p as [p | p | ]; arm_in_range p ].

Lemma kernel_in_range (k : kernel_width) (T : ctype) (v e : Z) :
  in_range T v ->
  in_range T (divide_power10_Nbit k T v e) /\
  in_range T (multiply_power10_Nbit k T v e).
Proof.
  intros Hv.
  destruct k; cbn [divide_power10_Nbit multiply_power10_Nbit];
    (split;
     (destruct e as [ | p | p ];
      [ assumption | arm_in_range p | apply cast_in_range ])).
Qed.

Lemma shift_in_range (R : rep) (Rad : Radix) (T : ctype) (v s : Z) :
  in_range T v -> in_range T (detail.shift R Rad T v s).
Proof.
  intros Hv. unfold detail.shift.
  destruct (s =? 0); [ assumption | ].
  destruct (s >? 0).
  - unfold detail.right_shift. destruct Rad; [ apply cast_in_range | ].
    rewrite divide_power10_dispatch. now apply kernel_in_range.
  - unfold detail.left_shift. destruct Rad; [ apply cast_in_range | ].
    rewrite multiply_power10_dispatch. now apply kernel_in_range.
Qed.

Lemma rescaled_well_typed (R : rep) (Rad : Radix) (x : fixed_point) (s : Z) :
  well_typed R x -> in_range int32_t s -> well_typed R (rescaled R Rad x s).
Proof.
  intros [Hv Hsx] Hs. unfold rescaled.
  destruct (s =? _scale x); [ now split | ].
  split; cbn [fixed_point_of_scaled _value _scale value scale]; trivial.
  now apply shift_in_range.
Qed.

Lemma min_in_int32 (a b : Z) :
  in_range int32_t a -> in_range int32_t b -> in_range int32_t (Z.min a b).
Proof. unfold in_range. lia. Qed.

End ClosureFacts.

(** ** Algebra of the operators *)

Section AlgebraFacts.

Lemma add32 (a b : Z) :
  in_range int32_t a -> in_range int32_t b ->
  snd (c_add (int32_t, a) (int32_t, b)) = cast int32_t (a + b).
Proof.
  intros Ha Hb. unfold c_add, binop; cbn [fst snd].
  change (common_type int32_t int32_t) with int32_t.
  now rewrite (cast_id int32_t a Ha), (cast_id int32_t b Hb).
Qed.

Lemma binop_comm (f : Z -> Z -> Z) (T : ctype) (a b : Z) :
  (forall x y, f x y = f y x) ->
  binop f (T, a) (T, b) = binop f (T, b) (T, a).
Proof. intros Hf. unfold binop; cbn [fst snd]. now rewrite Hf. Qed.

(** The remainder lies between zero and the dividend. *)
Lemma rem_between (a b : Z) :
  b <> 0 ->
  (0 <= a -> 0 <= Z.rem a b <= a) /\ (a <= 0 -> a <= Z.rem a b <= 0).
Proof.
  intros Hb.
  assert (Hpos : forall x y, 0 <= x -> 0 < y -> 0 <= Z.rem x y <= x).
  { intros x y Hx Hy. pose proof (Z.rem_bound_pos x y Hx Hy).
    pose proof (Z.rem_le x y Hx Hy). lia. }
  rewrite <- (Z.rem_abs_r a b Hb).
  assert (Hab : 0 < Z.abs b) by lia.
  split; intros Ha.
  - apply Hpos; assumption.
  - rewrite <- (Z.opp_involutive a) at 2 3. rewrite Z.rem_opp_l by lia.
    pose proof (Hpos (- a) (Z.abs b) ltac:(lia) Hab). lia.
Qed.

Lemma quot_times_in_range (R : rep) (a b : Z) :
  in_range R a -> b <> 0 -> in_range R (Z.quot a b * b).
Proof.
  intros Ha Hb. pose proof (Z.quot_rem' a b) as Hqr.
  destruct (rem_between a b Hb) as [Hp Hn].
  pose proof (min_of_nonpos R). pose proof (max_of_pos R).
  unfold in_range in *. destruct (Z_le_gt_dec 0 a); lia.
Qed.

End AlgebraFacts.

(** X8.  Addition and multiplication are commutative, and so are [==] and
    [!=], for all operands, overflowing ones included: the common scale is a
    minimum and the coefficients are combined by a commutative operation of
    the representation type. *)
Theorem plus_times_commute (R : rep) (Rad : Radix) (lhs rhs : fixed_point) :
  operator_plus R Rad lhs rhs = operator_plus R Rad rhs lhs /\
  operator_times R lhs rhs = operator_times R rhs lhs /\
  operator_eq R Rad lhs rhs = operator_eq R Rad rhs lhs /\
  operator_ne R Rad lhs rhs = operator_ne R Rad rhs lhs.
Proof.
  unfold operator_plus, operator_times, operator_eq, operator_ne, c_add, c_mul.
  rewrite (Z.min_comm (_scale rhs) (_scale lhs)).
  set (s := Z.min (_scale lhs) (_scale rhs)).
  set (a := _value (rescaled R Rad lhs s)).
  set (b := _value (rescaled R Rad rhs s)).
  rewrite (binop_comm Z.add R a b Z.add_comm).
  rewrite (binop_comm Z.mul R (_value lhs) (_value rhs) Z.mul_comm).
  rewrite (binop_comm Z.add int32_t (_scale lhs) (_scale rhs) Z.add_comm).
  rewrite (Z.eqb_sym a b).
  split; [ reflexivity | split; [ reflexivity | split; reflexivity ] ].
Qed.

(** X9.  Zero and one are neutral.  Adding or subtracting
    [fixed_point{0, x.scale()}] returns [x] for every scale, also beyond the
    range of the kernels, because the shift of zero is zero; multiplying by
    the scale-less [fixed_point{1}] returns [x]; and [x - x] is zero at the
    scale of [x]. *)
Theorem neutral_elements (R : rep) (Rad : Radix) (T : ctype) (x : fixed_point) :
  well_typed R x ->
  operator_plus R Rad x (fixed_point_ctor R Rad T 0 (_scale x)) = x /\
  operator_plus R Rad (fixed_point_ctor R Rad T 0 (_scale x)) x = x /\
  operator_minus R Rad x (fixed_point_ctor R Rad T 0 (_scale x)) = x /\
  operator_times R x (fixed_point_of_value R T 1) = x /\
  operator_minus R Rad x x = {| _value := 0; _scale := _scale x |}.
Proof.
  intros [Hv Hs].
  assert (Hz : in_range R 0) by (apply small_in_rep; lia).
  assert (Hone : in_range R 1) by (apply small_in_rep; lia).
  assert (Hctor : fixed_point_ctor R Rad T 0 (_scale x) =
                  {| _value := 0; _scale := _scale x |}).
  { unfold fixed_point_ctor. now rewrite cast_zero, shift_zero. }
  pose proof (rescaled_same R Rad x) as Hx.
  pose proof (rescaled_same R Rad {| _value := 0; _scale := _scale x |}) as H0.
  cbn [_scale] in H0.
  rewrite Hctor.
  unfold operator_plus, operator_minus, operator_times, fixed_point_of_value,
    fixed_point_of_scaled.
  cbn [_value _scale value scale]. rewrite Z.min_id, Hx, H0.
  cbn [_value _scale].
  rewrite (add_rep R (_value x) 0), (add_rep R 0 (_value x)),
    (sub_rep R (_value x) 0), (sub_rep R (_value x) (_value x)),
    (mul_rep R (_value x) (cast R 1)), (add32 (_scale x) 0)
    by (trivial; try apply cast_in_range; apply small_in_int32; lia).
  rewrite (cast_id R 1 Hone), !Z.add_0_r, Z.add_0_l, Z.sub_0_r, Z.mul_1_r,
    Z.sub_diag, (cast_id R _ Hv), (cast_id int32_t _ Hs), cast_zero.
  destruct x; cbn [_value _scale]; repeat split; reflexivity.
Qed.

Lemma neutral_elements_witness :
  operator_plus Rep32 BASE_10 {| _value := -42; _scale := 2000 |}
    (fixed_point_ctor Rep32 BASE_10 int_t 0 2000) =
  {| _value := -42; _scale := 2000 |}.
Proof.
  apply (neutral_elements Rep32 BASE_10 int_t {| _value := -42; _scale := 2000 |}).
  split; closed_range.
Defined.

(** X10.  At equal scales quotient and remainder recompose the dividend:
    [(x / y) * y + x % y] is [x], for every divisor other than zero, the one
    overflowing quotient [min / -1] excepted. *)
Theorem quotient_remainder_recompose
    (R : rep) (Rad : Radix) (x y : fixed_point) :
  well_typed R x -> well_typed R y ->
  _scale x = _scale y ->
  _value y <> 0 ->
  ~ (_value x = min_of R /\ _value y = -1) ->
  exists q r,
    operator_divide R x y = Some q /\
    operator_mod R Rad x y = Some r /\
    q = {| _value := Z.quot (_value x) (_value y); _scale := 0 |} /\
    r = {| _value := Z.rem (_value x) (_value y); _scale := _scale x |} /\
    operator_plus R Rad (operator_times R q y) r = x.
Proof.
  intros [Hvx Hsx] [Hvy Hsy] Hsc Hnz Hnot.
  assert (Hq : in_range R (Z.quot (_value x) (_value y)))
    by (apply quot_rep_in_range; assumption).
  assert (Hr : in_range R (Z.rem (_value x) (_value y)))
    by (apply rem_in_range; assumption).
  assert (Hqy : in_range R (Z.quot (_value x) (_value y) * _value y))
    by (apply quot_times_in_range; assumption).
  exists {| _value := Z.quot (_value x) (_value y); _scale := 0 |},
         {| _value := Z.rem (_value x) (_value y); _scale := _scale x |}.
  unfold operator_divide, operator_mod, fixed_point_of_scaled.
  rewrite <- Hsc, Z.min_id, !rescaled_same.
  pose proof (rescaled_same R Rad y) as Hy. rewrite <- Hsc in Hy. rewrite Hy.
  rewrite (c_div_traps_false R (_value x) (_value y)) by assumption.
  cbn [_value _scale value scale].
  rewrite rem_rep, sub32, Z.sub_diag by assumption. rewrite cast_zero.
  unfold c_div, binop; cbn [fst snd].
  rewrite common_type_rep, (cast_id R _ Hvx), (cast_id R _ Hvy), (cast_id R _ Hq).
  repeat split.
  unfold operator_times, operator_plus, fixed_point_of_scaled.
  cbn [_value _scale value scale].
  rewrite mul_rep, (cast_id R _ Hqy) by assumption.
  rewrite <- Hsc.
  rewrite (add32 0 (_scale x)) by (trivial; closed_range).
  rewrite Z.add_0_l, (cast_id int32_t _ Hsx), Z.min_id.
  pose proof (rescaled_same R Rad
                {| _value := Z.quot (_value x) (_value y) * _value y;
                   _scale := _scale x |}) as Ha.
  pose proof (rescaled_same R Rad
                {| _value := Z.rem (_value x) (_value y);
                   _scale := _scale x |}) as Hb.
  cbn [_scale] in Ha, Hb. rewrite Ha, Hb. cbn [_value].
  rewrite add_rep by assumption.
  pose proof (Z.quot_rem' (_value x) (_value y)) as Hqr.
  replace (Z.quot (_value x) (_value y) * _value y + Z.rem (_value x) (_value y))
    with (_value x) by lia.
  rewrite (cast_id R _ Hvx). now destruct x.
Qed.

Lemma quotient_remainder_recompose_witness :
  exists q r,
    operator_divide Rep32 {| _value := -7; _scale := -1 |}
      {| _value := 2; _scale := -1 |} = Some q /\
    operator_mod Rep32 BASE_10 {| _value := -7; _scale := -1 |}
      {| _value := 2; _scale := -1 |} = Some r /\
    q = {| _value := -3; _scale := 0 |} /\
    r = {| _value := -1; _scale := -1 |} /\
    operator_plus Rep32 BASE_10
      (operator_times Rep32 q {| _value := 2; _scale := -1 |}) r =
    {| _value := -7; _scale := -1 |}.
Proof.
  apply (quotient_remainder_recompose Rep32 BASE_10
           {| _value := -7; _scale := -1 |} {| _value := 2; _scale := -1 |}).
  - split; closed_range.
  - split; closed_range.
  - reflexivity.
  - discriminate.
  - intros [H _]. discriminate H.
Defined.

(** X11.  For all operands exactly one of [<], [==], [>] holds, and [<=],
    [>=], [!=] are the negations of [>], [<], [==]: the six comparisons read
    the same two rescaled coefficients. *)
Theorem comparisons_consistent (R : rep) (Rad : Radix) (lhs rhs : fixed_point) :
  (operator_lt R Rad lhs rhs = true /\ operator_eq R Rad lhs rhs = false /\
   operator_gt R Rad lhs rhs = false \/
   operator_lt R Rad lhs rhs = false /\ operator_eq R Rad lhs rhs = true /\
   operator_gt R Rad lhs rhs = false \/
   operator_lt R Rad lhs rhs = false /\ operator_eq R Rad lhs rhs = false /\
   operator_gt R Rad lhs rhs = true) /\
  operator_le R Rad lhs rhs = negb (operator_gt R Rad lhs rhs) /\
  operator_ge R Rad lhs rhs = negb (operator_lt R Rad lhs rhs) /\
  operator_ne R Rad lhs rhs = negb (operator_eq R Rad lhs rhs).
Proof.
  unfold operator_lt, operator_eq, operator_gt, operator_le, operator_ge,
    operator_ne.
  set (a := _value (rescaled R Rad lhs (Z.min (_scale lhs) (_scale rhs)))).
  set (b := _value (rescaled R Rad rhs (Z.min (_scale lhs) (_scale rhs)))).
  rewrite Z.gtb_ltb, Z.geb_leb.
  destruct (Z.ltb_spec a b), (Z.eqb_spec a b), (Z.ltb_spec b a),
    (Z.leb_spec a b), (Z.leb_spec b a); try lia; cbn; tauto.
Qed.

(** X12.  A value equals its own rescaling to a finer scale: [==] holds and
    neither [<] nor [>] does between [x] and [x.rescaled(s')], in either
    order, whenever the finer coefficient fits the type. *)
Theorem rescaled_finer_compares_equal
    (R : rep) (Rad : Radix) (x : fixed_point) (s' : Z) :
  well_typed R x -> in_range int32_t s' ->
  s' <= _scale x ->
  in_range R (coefficient_at Rad x s') ->
  operator_eq R Rad (rescaled R Rad x s') x = true /\
  operator_eq R Rad x (rescaled R Rad x s') = true /\
  operator_lt R Rad (rescaled R Rad x s') x = false /\
  operator_gt R Rad (rescaled R Rad x s') x = false.
Proof.
  intros Hx Hs Hle Hfit.
  pose proof (rescaled_finer R Rad x s' Hx Hs Hle Hfit) as Hy.
  pose proof (rescaled_same R Rad
                {| _value := coefficient_at Rad x s'; _scale := s' |}) as Hsame.
  cbn [_scale] in Hsame.
  unfold operator_eq, operator_lt, operator_gt. rewrite Hy. cbn [_scale].
  rewrite Z.min_l, Z.min_r by lia. rewrite Hsame, Hy. cbn [_value].
  rewrite Z.eqb_refl, Z.ltb_irrefl, Z.gtb_ltb, Z.ltb_irrefl. tauto.
Qed.

Lemma rescaled_finer_compares_equal_witness :
  operator_eq Rep32 BASE_10
    (rescaled Rep32 BASE_10 {| _value := 15; _scale := -1 |} (-2))
    {| _value := 15; _scale := -1 |} = true /\
  rescaled Rep32 BASE_10 {| _value := 15; _scale := -1 |} (-2) =
  {| _value := 150; _scale := -2 |}.
Proof.
  split; [ | reflexivity ].
  apply (rescaled_finer_compares_equal Rep32 BASE_10
           {| _value := 15; _scale := -1 |} (-2)).
  - split; closed_range.
  - closed_range.
  - cbn. lia.
  - closed_range.
Defined.

(** ** Conversion to integral types *)

Section ConversionFacts.

Lemma cast_narrow_mul (U C : ctype) (a b : Z) :
  bits U <= bits C -> cast U (cast C (cast C a * b)) = cast U (a * b).
Proof.
  intros Hle. rewrite cast_cast_narrow by assumption.
  apply cast_congr. pose proof (bits_pos U).
  assert (0 < 2 ^ bits U) by (apply Z.pow_pos_nonneg; lia).
  rewrite Z.mul_mod, cast_mod_narrow, <- Z.mul_mod by lia. reflexivity.
Qed.

Lemma common_type_min_r (A B : ctype) :
  is_signed (common_type A B) = true -> min_of (common_type A B) <= min_of B.
Proof. destruct A as [[] []], B as [[] []]; vm_compute; discriminate. Qed.

Lemma common_type_unsigned (U : ctype) (R : rep) :
  is_signed (common_type U R) = false -> is_signed U = false.
Proof. destruct U as [[] []], R; vm_compute; congruence. Qed.

(** A coefficient of [Rep] that is not negative when the [U] value it comes
    from is not negative survives the conversion to the common type. *)
Lemma in_common_range (U : ctype) (R : rep) (v c : Z) :
  in_range U v -> in_range R c -> (0 <= v -> 0 <= c) ->
  in_range (common_type U R) c.
Proof.
  intros Hv Hc Hsign.
  pose proof (common_type_max_r U R) as Hmax.
  destruct (is_signed (common_type U R)) eqn:Hs.
  - pose proof (common_type_min_r U R Hs). unfold in_range in *. lia.
  - pose proof (unsigned_nonneg U v (common_type_unsigned U R Hs) Hv).
    unfold in_range in *. unfold min_of at 1. rewrite Hs. lia.
Qed.

Variable R : rep.
Variable U : ctype.

Lemma operator_integral_up (x : fixed_point) :
  in_range int32_t (_scale x) ->
  0 <= _scale x <= kernel_range (rep_kernel R) ->
  operator_integral R BASE_10 U x = cast U (_value x * 10 ^ _scale x).
Proof.
  intros Hs Hr. unfold operator_integral.
  assert (Hk : kernel_range (rep_kernel R) <= 38) by (destruct R; cbn; lia).
  rewrite neg32 by assumption.
  rewrite (cast_id int32_t (- _scale x)) by (apply small_in_int32; lia).
  set (C := common_type U R).
  assert (HU : bits U <= bits C) by apply common_type_bits_l.
  unfold detail.shift.
  destruct (Z.eqb_spec (- _scale x) 0) as [H0 | Hnz].
  - replace (_scale x) with 0 by lia.
    rewrite Z.pow_0_r, Z.mul_1_r. now apply cast_cast_narrow.
  - destruct (Z.gtb_spec (- _scale x) 0); [ lia | ].
    unfold detail.left_shift.
    rewrite (cast_id int32_t (- _scale x)) by (apply small_in_int32; lia).
    rewrite neg32 by (apply small_in_int32; lia).
    rewrite Z.opp_involutive, (cast_id int32_t _ Hs).
    rewrite multiply_power10_spec by (trivial; apply cast_in_range).
    now apply cast_narrow_mul.
Qed.

Lemma operator_integral_down (x : fixed_point) :
  in_range int32_t (_scale x) ->
  - kernel_range (rep_kernel R) <= _scale x < 0 ->
  in_range (common_type U R) (_value x) ->
  (R = Rep64 -> _scale x = -19 -> 0 <= _value x \/ width_of U = W128) ->
  operator_integral R BASE_10 U x = cast U (Z.quot (_value x) (10 ^ (- _scale x))).
Proof.
  intros Hs Hr Hv H19. unfold operator_integral.
  assert (Hk : kernel_range (rep_kernel R) <= 38) by (destruct R; cbn; lia).
  rewrite neg32 by assumption.
  rewrite (cast_id int32_t (- _scale x)) by (apply small_in_int32; lia).
  set (C := common_type U R) in *.
  rewrite (cast_id C _ Hv). unfold detail.shift.
  destruct (Z.eqb_spec (- _scale x) 0); [ lia | ].
  destruct (Z.gtb_spec (- _scale x) 0); [ | lia ].
  unfold detail.right_shift.
  rewrite (cast_id int32_t (- _scale x)) by (apply small_in_int32; lia).
  rewrite divide_power10_spec; [ reflexivity | assumption | lia | ].
  intros HR He.
  destruct (H19 HR ltac:(lia)) as [Hnn | Hw]; [ now right | ].
  destruct (is_signed U) eqn:HsU.
  - left. subst C R. destruct U as [sg w]; cbn in HsU, Hw; subst; reflexivity.
  - right. subst C R. destruct U as [sg w]; cbn in HsU, Hw; subst.
    eapply unsigned_nonneg; [ | exact Hv ]. reflexivity.
Qed.

End ConversionFacts.

(** X13.  A decimal with a scale from 0 to the end of the kernel range
    converts to [coefficient * 10^scale] reduced to the target type [U],
    for every integral [U] and every coefficient: the product is formed in
    the common type of [U] and [Rep], so a coefficient times a power that
    overflows [Rep] still converts exactly when the product fits [U]. *)
Theorem operator_integral_nonnegative_scale
    (R : rep) (U : ctype) (x : fixed_point) :
  in_range int32_t (_scale x) ->
  0 <= _scale x <= kernel_range (rep_kernel R) ->
  operator_integral R BASE_10 U x = cast U (_value x * 10 ^ _scale x) /\
  (in_range U (_value x * 10 ^ _scale x) ->
   operator_integral R BASE_10 U x = _value x * 10 ^ _scale x).
Proof.
  intros Hs Hr. rewrite (operator_integral_up R U x Hs Hr).
  split; [ reflexivity | apply cast_id ].
Qed.

(** [decimal32] with coefficient 3 and scale 9 is three billion: more than
    an [int32_t] holds, and exactly what the conversion to [int64_t] returns. *)
Lemma operator_integral_nonnegative_scale_witness :
  operator_integral Rep32 BASE_10 int64_t {| _value := 3; _scale := 9 |} =
  3000000000.
Proof.
  destruct (operator_integral_nonnegative_scale Rep32 int64_t
              {| _value := 3; _scale := 9 |}) as [_ Hexact].
  - closed_range.
  - cbn. lia.
  - apply Hexact. closed_range.
Defined.

(** X14.  A decimal with a negative scale within the kernel range converts
    to its integer part, truncated toward zero and reduced to [U], provided
    the coefficient survives the conversion to the common type of [U] and
    [Rep] (always, for a signed [U]).  The excluded case is [decimal64] at
    scale -19 with a negative coefficient and [U] below 128 bits. *)
Theorem operator_integral_negative_scale
    (R : rep) (U : ctype) (x : fixed_point) :
  in_range int32_t (_scale x) ->
  - kernel_range (rep_kernel R) <= _scale x < 0 ->
  in_range (common_type U R) (_value x) ->
  (R = Rep64 -> _scale x = -19 -> 0 <= _value x \/ width_of U = W128) ->
  operator_integral R BASE_10 U x =
  cast U (Z.quot (_value x) (10 ^ (- _scale x))).
Proof. apply operator_integral_down. Qed.

Lemma operator_integral_negative_scale_witness :
  operator_integral Rep64 BASE_10 int32_t {| _value := -12345; _scale := -2 |} =
  -123.
Proof.
  apply (operator_integral_negative_scale Rep64 int32_t
           {| _value := -12345; _scale := -2 |}).
  - closed_range.
  - cbn. lia.
  - closed_range.
  - intros _ H. discriminate H.
Defined.

(** X15.  Constructing a decimal from an integer at a scale of at most 0
    and converting it back returns the integer, whenever the integer has
    the target type and the shifted coefficient fits the representation. *)
Theorem integral_round_trip
    (R : rep) (T U : ctype) (v s : Z) :
  in_range R v -> in_range U v ->
  - kernel_range (rep_kernel R) <= s <= 0 ->
  in_range R (v * 10 ^ (- s)) ->
  operator_integral R BASE_10 U (fixed_point_ctor R BASE_10 T v s) = v.
Proof.
  intros Hv HvU Hs Hfit.
  assert (Hk : 0 < kernel_range (rep_kernel R) <= 38) by (destruct R; cbn; lia).
  destruct (Z.eq_dec s 0) as [-> | Hnz].
  - rewrite operator_integral_up; cbn [fixed_point_ctor _value _scale];
      [ | closed_range | lia ].
    rewrite (cast_id R v Hv). cbn [detail.shift Z.eqb].
    rewrite Z.pow_0_r, Z.mul_1_r. apply cast_id, HvU.
  - assert (Hctor : fixed_point_ctor R BASE_10 T v s =
                    {| _value := v * 10 ^ (- s); _scale := s |}).
    { unfold fixed_point_ctor. f_equal. rewrite (cast_id R v Hv).
      replace s with (- - s) at 1 by lia.
      rewrite (shift_left_spec R BASE_10) by (trivial; cbn [shift_range]; lia).
      apply cast_id, Hfit. }
    assert (Hp : 0 < 10 ^ (- s)) by (apply Z.pow_pos_nonneg; lia).
    rewrite Hctor, operator_integral_down; cbn [_value _scale].
    + rewrite Z.quot_mul by lia. apply cast_id, HvU.
    + apply small_in_int32. lia.
    + lia.
    + apply (in_common_range U R v); trivial. nia.
    + intros -> Hs19. left. rewrite Hs19 in Hfit.
      unfold in_range in Hfit. cbn [rep_type] in Hfit.
      change (min_of int64_t) with (- 9223372036854775808) in Hfit.
      change (10 ^ (- -19)) with 10000000000000000000 in *. lia.
Qed.

Lemma integral_round_trip_witness :
  operator_integral Rep64 BASE_10 uint8_t
    (fixed_point_ctor Rep64 BASE_10 int_t 200 (-16)) = 200.
Proof.
  apply (integral_round_trip Rep64 int_t uint8_t 200 (-16)).
  - closed_range.
  - closed_range.
  - cbn. lia.
  - closed_range.
Defined.

(** X16.  At a positive scale within the kernel range the same round trip
    returns the integer without its low digits: [v - v % 10^s], reduced to
    the target type. *)
Theorem integral_round_trip_coarse
    (R : rep) (T U : ctype) (v s : Z) :
  in_range R v ->
  0 < s <= kernel_range (rep_kernel R) ->
  (R = Rep64 -> s = 19 -> 0 <= v) ->
  operator_integral R BASE_10 U (fixed_point_ctor R BASE_10 T v s) =
  cast U (v - Z.rem v (10 ^ s)).
Proof.
  intros Hv Hs H19.
  assert (Hk : kernel_range (rep_kernel R) <= 38) by (destruct R; cbn; lia).
  assert (Hctor : fixed_point_ctor R BASE_10 T v s =
                  {| _value := Z.quot v (10 ^ s); _scale := s |}).
  { unfold fixed_point_ctor. f_equal. rewrite (cast_id R v Hv).
    rewrite (shift_right_spec R BASE_10);
      [ reflexivity | assumption | cbn [shift_range]; lia
      | intros HR _ Hs19; now apply H19 ]. }
  rewrite Hctor, operator_integral_up; cbn [_value _scale].
  - f_equal. pose proof (Z.quot_rem' v (10 ^ s)). lia.
  - apply small_in_int32. lia.
  - lia.
Qed.

Lemma integral_round_trip_coarse_witness :
  operator_integral Rep32 BASE_10 int32_t
    (fixed_point_ctor Rep32 BASE_10 int_t (-1999) 2) = -1900.
Proof.
  apply (integral_round_trip_coarse Rep32 int_t int32_t (-1999) 2).
  - closed_range.
  - cbn. lia.
  - intros H. discriminate H.
Defined.

(** ** The overflow predicates against the operators *)

Section CheckedFacts.

Variable R : rep.

Lemma cast_exact_iff (z : Z) : cast R z = z <-> in_range R z.
Proof.
  split; [ intros <-; apply cast_in_range | apply cast_id ].
Qed.

Lemma addition_fits (a b : Z) :
  in_range R a -> in_range R b ->
  addition_overflow R R a b = false <-> in_range R (a + b).
Proof.
  intros Ha Hb. pose proof (min_rep_in_range R) as Hm.
  pose proof (max_rep_in_range R) as HM.
  unfold addition_overflow. rep_conversions R.
  rewrite !(cast_id R a Ha), !(cast_id R b Hb), (cast_id R _ Hm),
    (cast_id R _ HM), cast_zero.
  pose proof (min_of_nonpos R) as Hmin. pose proof (max_of_pos R) as Hmax.
  unfold in_range in *.
  destruct (Z.gtb_spec b 0).
  - rewrite (cast_id R (max_of R - b)) by (unfold in_range; lia).
    rewrite Z.gtb_ltb, Z.ltb_ge. lia.
  - rewrite (cast_id R (min_of R - b)) by (unfold in_range; lia).
    rewrite Z.ltb_ge. lia.
Qed.

Lemma subtraction_fits (a b : Z) :
  in_range R a -> in_range R b ->
  subtraction_overflow R R a b = false <-> in_range R (a - b).
Proof.
  intros Ha Hb. pose proof (min_rep_in_range R) as Hm.
  pose proof (max_rep_in_range R) as HM.
  unfold subtraction_overflow. rep_conversions R.
  rewrite !(cast_id R a Ha), !(cast_id R b Hb), (cast_id R _ Hm),
    (cast_id R _ HM), cast_zero.
  pose proof (min_of_nonpos R) as Hmin. pose proof (max_of_pos R) as Hmax.
  unfold in_range in *.
  destruct (Z.gtb_spec b 0).
  - rewrite (cast_id R (min_of R + b)) by (unfold in_range; lia).
    rewrite Z.ltb_ge. lia.
  - rewrite (cast_id R (max_of R + b)) by (unfold in_range; lia).
    rewrite Z.gtb_ltb, Z.ltb_ge. lia.
Qed.

Lemma multiplication_fits (a b : Z) :
  in_range R a -> in_range R b ->
  multiplication_overflow R R a b = false <-> in_range R (a * b).
Proof.
  intros Ha Hb. pose proof (min_rep_in_range R) as Hm.
  pose proof (max_rep_in_range R) as HM.
  pose proof (rep_limits R) as Hlim.
  pose proof (min_of_nonpos R) as Hmin. pose proof (max_of_pos R) as Hmax.
  assert (H1 : cast R (-1) = -1) by (apply cast_id, small_in_rep; lia).
  unfold multiplication_overflow. rep_conversions R.
  rewrite !(cast_id R a Ha), !(cast_id R b Hb), !(cast_id R _ Hm),
    !(cast_id R _ HM), cast_zero, H1.
  destruct (Z.gtb_spec b 0).
  - rewrite !(cast_id R (Z.quot _ b)) by (apply quot_rep_in_range; trivial; lia).
    rewrite orb_false_iff, Z.gtb_ltb, !Z.ltb_ge.
    pose proof (mul_overflow_pos (min_of R) (max_of R) a b ltac:(lia) ltac:(lia)).
    unfold in_range in *. lia.
  - destruct (Z.ltb_spec b (-1)).
    + rewrite !(cast_id R (Z.quot _ b)) by (apply quot_rep_in_range; trivial; lia).
      rewrite orb_false_iff, Z.gtb_ltb, !Z.ltb_ge.
      pose proof (mul_overflow_neg (min_of R) (max_of R) a b ltac:(lia) ltac:(lia)).
      unfold in_range in *. lia.
    + rewrite andb_false_iff, !Z.eqb_neq. unfold in_range in *. nia.
Qed.

Lemma division_overflow_false_iff (a b : Z) :
  in_range R a -> in_range R b ->
  division_overflow R R a b = false <-> ~ (a = min_of R /\ b = -1).
Proof.
  intros Ha Hb. pose proof (min_rep_in_range R) as Hm.
  assert (H1 : cast R (-1) = -1) by (apply cast_id, small_in_rep; lia).
  unfold division_overflow. rep_conversions R.
  rewrite (cast_id R a Ha), (cast_id R b Hb), (cast_id R _ Hm), H1.
  rewrite andb_false_iff, !Z.eqb_neq.
  destruct (Z.eq_dec a (min_of R)), (Z.eq_dec b (-1)); tauto.
Qed.

End CheckedFacts.

(** X17.  The predicate that the debug assertion of [operator+] evaluates,
    [addition_overflow] on the two rescaled coefficients, is false exactly
    when the coefficient [operator+] returns is their exact sum; the same
    for [subtraction_overflow] and [operator-]. *)
Theorem checked_sum_and_difference
    (R : rep) (Rad : Radix) (lhs rhs : fixed_point) (a b : Z) :
  well_typed R lhs -> well_typed R rhs ->
  a = _value (rescaled R Rad lhs (Z.min (_scale lhs) (_scale rhs))) ->
  b = _value (rescaled R Rad rhs (Z.min (_scale lhs) (_scale rhs))) ->
  (addition_overflow R R a b = false <->
   _value (operator_plus R Rad lhs rhs) = a + b) /\
  (subtraction_overflow R R a b = false <->
   _value (operator_minus R Rad lhs rhs) = a - b).
Proof.
  intros Hl Hr Ha Hb.
  assert (Hs : in_range int32_t (Z.min (_scale lhs) (_scale rhs)))
    by (apply min_in_int32; [ apply Hl | apply Hr ]).
  assert (Har : in_range R a)
    by (subst a; apply rescaled_well_typed; assumption).
  assert (Hbr : in_range R b)
    by (subst b; apply rescaled_well_typed; assumption).
  unfold operator_plus, operator_minus, fixed_point_of_scaled.
  cbn [_value value]. rewrite <- Ha, <- Hb.
  rewrite add_rep, sub_rep by assumption.
  rewrite addition_fits, subtraction_fits, !cast_exact_iff by assumption.
  tauto.
Qed.

(** Two billion plus two billion: the predicate is true and the sum
    [operator+] returns is not the exact one. *)
Lemma checked_sum_and_difference_witness :
  addition_overflow Rep32 Rep32 2000000000 2000000000 = true /\
  _value (operator_plus Rep32 BASE_10
            {| _value := 2000000000; _scale := 0 |}
            {| _value := 200000000; _scale := 1 |}) <>
  2000000000 + 2000000000.
Proof.
  split; [ reflexivity | ].
  assert (Hl : well_typed Rep32 {| _value := 2000000000; _scale := 0 |})
    by (split; closed_range).
  assert (Hr : well_typed Rep32 {| _value := 200000000; _scale := 1 |})
    by (split; closed_range).
  destruct (checked_sum_and_difference Rep32 BASE_10 _ _
              2000000000 2000000000 Hl Hr eq_refl eq_refl) as [[_ Hadd] _].
  intros Heq. apply Hadd in Heq. discriminate Heq.
Defined.

(** X18.  [multiplication_overflow] on the two coefficients is false exactly
    when [operator*] returns their exact product, and, for a divisor other
    than zero, [division_overflow] is false exactly when [operator/] returns
    their truncated quotient. *)
Theorem checked_product_and_quotient
    (R : rep) (lhs rhs : fixed_point) :
  well_typed R lhs -> well_typed R rhs ->
  (multiplication_overflow R R (_value lhs) (_value rhs) = false <->
   _value (operator_times R lhs rhs) = _value lhs * _value rhs) /\
  (_value rhs <> 0 ->
   (division_overflow R R (_value lhs) (_value rhs) = false <->
    exists q, operator_divide R lhs rhs = Some q /\
              _value q = Z.quot (_value lhs) (_value rhs))).
Proof.
  intros [Hl _] [Hr _]. split.
  - unfold operator_times, fixed_point_of_scaled. cbn [_value value].
    rewrite mul_rep, multiplication_fits, cast_exact_iff by assumption. tauto.
  - intros Hnz. rewrite division_overflow_false_iff by assumption.
    unfold operator_divide, fixed_point_of_scaled. split.
    + intros Hnot. rewrite c_div_traps_false by assumption.
      eexists. split; [ reflexivity | ]. cbn [_value value].
      unfold c_div, binop; cbn [fst snd].
      rewrite common_type_rep, (cast_id R _ Hl), (cast_id R _ Hr).
      apply cast_id, quot_rep_in_range; assumption.
    + intros (q & Hq & _) Hbad.
      assert (Htrap : c_div_traps R (_value lhs) (_value rhs) = true)
        by (apply c_div_traps_true; now right).
      rewrite Htrap in Hq. discriminate Hq.
Qed.

Lemma checked_product_and_quotient_witness :
  multiplication_overflow Rep32 Rep32 65536 (-32768) = false /\
  _value (operator_times Rep32 {| _value := 65536; _scale := 0 |}
            {| _value := -32768; _scale := 0 |}) = -2147483648.
Proof.
  destruct (checked_product_and_quotient Rep32
              {| _value := 65536; _scale := 0 |}
              {| _value := -32768; _scale := 0 |}) as [[Hexact Hfalse] _].
  - split; closed_range.
  - split; closed_range.
  - split; [ apply Hfalse | apply Hexact, Hfalse ]; reflexivity.
Defined.

(** ** The rendering read back *)

Section ReadBackFacts.

Lemma decimal_value_append (a b : string) :
  decimal_value (a ++ b) = decimal_value a * 10 ^ size b + decimal_value b.
Proof.
  induction a as [ | c a IH ]; cbn [append decimal_value].
  - lia.
  - rewrite IH. fold (size (a ++ b)). fold (size a).
    rewrite size_append, Z.pow_add_r by (unfold size; lia). lia.
Qed.

Lemma decimal_value_zeros (n : nat) :
  decimal_value (Nat.iter n (String "0"%char) EmptyString) = 0.
Proof.
  induction n as [ | n IH ]; [ reflexivity | ].
  simpl Nat.iter. cbn [decimal_value]. rewrite IH.
  change (digit_value "0"%char) with 0. lia.
Qed.

End ReadBackFacts.

(** X20.  For a scale that is not negative the rendering is the rendering
    of the coefficient followed by [scale] zeros, and read back as a decimal
    number it is [coefficient * 10^scale], the value the pair denotes; a
    negative coefficient renders as a minus sign in front of the digits of
    its magnitude. *)
Theorem operator_string_denotes_value (R : rep) (x : fixed_point) :
  0 <= _scale x ->
  operator_string R x =
    Some (detail.to_string (_value x) ++ string_fill (_scale x) "0"%char)%string /\
  (0 <= _value x ->
   exists digits,
     operator_string R x = Some digits /\
     decimal_value digits = _value x * 10 ^ _scale x) /\
  (_value x < 0 ->
   exists digits,
     operator_string R x = Some (String "-"%char digits) /\
     decimal_value digits = - _value x * 10 ^ _scale x).
Proof.
  intros Hs. unfold operator_string.
  destruct (Z.ltb_spec (_scale x) 0); [ lia | ].
  assert (Hval : forall n, 0 <= n ->
            decimal_value
              (detail.to_string n ++ string_fill (_scale x) "0"%char) =
            n * 10 ^ _scale x).
  { intros n Hn. rewrite decimal_value_append, to_string_value by assumption.
    rewrite size_string_fill by assumption.
    unfold string_fill. rewrite decimal_value_zeros. lia. }
  split; [ reflexivity | split ].
  - intros Hv. eexists. split; [ reflexivity | apply Hval, Hv ].
  - intros Hv. rewrite to_string_negative by assumption.
    eexists. split; [ reflexivity | ]. apply Hval. lia.
Qed.

Lemma operator_string_denotes_value_witness :
  operator_string Rep32 {| _value := -7; _scale := 2 |} = Some "-700"%string /\
  decimal_value "700" = 7 * 10 ^ 2.
Proof.
  destruct (operator_string_denotes_value Rep32 {| _value := -7; _scale := 2 |})
    as (Hstr & _ & Hneg); [ cbn; lia | ].
  split; [ exact Hstr | reflexivity ].
Defined.
